(** * examples/eval.py: work splitting, the generation loop, the prediction
      runner and the structural statistics of the evaluation script.

    The Python functions [chunk], [interleave], [generate], [predict] and the
    closures of [load_metrics] are embedded as Rocq functions.  Python lists
    are [list]s, [l[i]] for [i >= 0] is stdpp's lookup [l !! i] (with [None]
    standing for [IndexError]), Python sets are [gset]s, exceptions are
    carried by a [result] type, and a loop that may run forever takes a fuel
    argument ([None] means that the fuel ran out). *)

From stdpp Require Import list gmap strings sorting.
From Stdlib Require Import QArith Qround Lqa.

Local Open Scope nat_scope.

(** ** Striped chunks and their interleaving *)

Module Striping.
Section striping.
Context {A : Type}.

(** Number of items of the slice [l[i::n]] of a list of [len] items, for
    [0 <= i] and [n >= 1] (what CPython computes when it adjusts the slice
    indices). *)
Definition slice_length (len i n : nat) : nat :=
  if decide (len ≤ i) then 0 else (len - i - 1) `div` n + 1.

(** The extended slice [l[i::n]]: the items at [i], [i+n], [i+2n], ... *)
Definition slice_step (l : list A) (i n : nat) : list A :=
  omap (λ k, l !! (i + k * n)) (seq 0 (slice_length (length l) i n)).

(** [chunk(l, n)], as the list of the values it yields:
    [for i in range(0, n): yield l[i::n]].  For [n = 0] the range is empty
    and no slice is taken.  This is [list(chunk(l, n))], as [predict] takes
    it; the generator object itself, which hands out each chunk once, is
    [Generator (chunk l n)] below. *)
Definition chunk (l : list A) (n : nat) : list (list A) :=
  (λ i, slice_step l i n) <$> seq 0 n.

(** One round of the loop of [interleave]:
    [interleaved.extend(chunk[idx] for chunk in chunks)].  [list.extend]
    appends the items of the generator one at a time, so when [chunk[idx]]
    raises [IndexError] the items appended before it stay in the list.
    The boolean tells whether [IndexError] was raised. *)
Fixpoint extend_round (idx : nat) (chunks : list (list A))
    (interleaved : list A) : list A * bool :=
  match chunks with
  | [] => (interleaved, false)
  | c :: chunks' =>
      match c !! idx with
      | Some x => extend_round idx chunks' (interleaved ++ [x])
      | None => (interleaved, true)
      end
  end.

(** [for idx in count(): try: ... except IndexError: break], started at
    round [idx]. *)
Fixpoint interleave_loop (fuel idx : nat) (chunks : list (list A))
    (interleaved : list A) : option (list A) :=
  match fuel with
  | 0 => None
  | S fuel' =>
      match extend_round idx chunks interleaved with
      | (interleaved', true) => Some interleaved'
      | (interleaved', false) =>
          interleave_loop fuel' (S idx) chunks interleaved'
      end
  end.

(** [interleave(chunks)] for a list of lists, as [predict] calls it on the
    list [gathered].  With no chunk at all no round ever raises and the loop
    runs forever ([None]); otherwise round [len(chunks[0])] raises at the
    latest, so [S (length c)] rounds are enough (see [interleave_loop_fuel]
    and [interleave_loop_nil]). *)
Definition interleave (chunks : list (list A)) : option (list A) :=
  match chunks with
  | [] => None
  | c :: _ => interleave_loop (S (length c)) 0 chunks []
  end.

(** What [interleave] can be handed as [chunks]: a list, which every
    [for chunk in chunks] walks from its start, or a generator (what
    [chunk] returns), which hands out each of its values once and is empty
    for every later [for]. *)
Inductive iterable :=
  | Sequence (items : list (list A))
  | Generator (pending : list (list A)).

(** The values one [for chunk in chunks] goes through. *)
Definition round_items (chunks : iterable) : list (list A) :=
  match chunks with
  | Sequence items => items
  | Generator pending => pending
  end.

(** The iterable after a [for] has gone through all of it. *)
Definition after_round (chunks : iterable) : iterable :=
  match chunks with
  | Sequence items => Sequence items
  | Generator _ => Generator []
  end.

(** The loop of [interleave] over any iterable of chunks, started at round
    [idx].  A round that raises [IndexError] ends the loop, so the state
    of a generator left in the middle of a round is never looked at. *)
Fixpoint interleave_over (fuel idx : nat) (chunks : iterable)
    (interleaved : list A) : option (list A) :=
  match fuel with
  | 0 => None
  | S fuel' =>
      match extend_round idx (round_items chunks) interleaved with
      | (interleaved', true) => Some interleaved'
      | (interleaved', false) =>
          interleave_over fuel' (S idx) (after_round chunks) interleaved'
      end
  end.

(** [len(set(map(len, chunks))) <= 1]: all chunks have the same length. *)
Definition equal_lengths (chunks : list (list A)) : Prop :=
  ∀ c1 c2, c1 ∈ chunks → c2 ∈ chunks → length c1 = length c2.

End striping.

Arguments iterable : clear implicits.

(** A loop that gives no result however many rounds it is allowed. *)
Definition diverges {B} (run : nat → option B) : Prop := ∀ fuel, run fuel = None.

End Striping.

Import Striping.

(** ** Exceptions *)

Inductive exception :=
  | IndexError
  | AssertionError
  | ZeroDivisionError
  | OtherError (msg : string).

Inductive result (A : Type) :=
  | Ok (a : A)
  | Raise (e : exception).
Arguments Ok {A} a.
Arguments Raise {A} e.

#[global] Instance result_ret : MRet result := λ A a, Ok a.
#[global] Instance result_bind : MBind result := λ A B f m,
  match m with Ok a => f a | Raise e => Raise e end.

(** [l[-1]] *)
Definition last_item {A} (l : list A) : result A :=
  match last l with Some x => Ok x | None => Raise IndexError end.

(** [[f(x) for x in l]] where [f] may raise: the first exception wins. *)
Fixpoint comprehension {A B} (f : A → result B) (l : list A) : result (list B) :=
  match l with
  | [] => Ok []
  | x :: l' => y ← f x; ys ← comprehension f l'; Ok (y :: ys)
  end.

(** ** [sorted(iterable, key=...)]

    Python's sort is stable and compares keys with [<] only.  The output of
    a stable sort is determined by its input, so stable insertion is taken
    as its model. *)

Module PySort.
Section pysort.
Context {K B : Type}.
Variable lt : K → K → bool.
Variable key : B → K.

Fixpoint insert_by (x : B) (l : list B) : list B :=
  match l with
  | [] => [x]
  | y :: l' => if lt (key y) (key x) then y :: insert_by x l' else x :: l
  end.

Definition sorted (l : list B) : list B := foldr insert_by [] l.

(** Ascending: no item has a key below the key of an item before it. *)
Definition ascending (l : list B) : Prop :=
  StronglySorted (λ x y, lt (key y) (key x) = false) l.
End pysort.

(** What the keys must satisfy for the sort to order them: [<] is
    asymmetric, and "not below" is transitive (numbers other than NaN). *)
Record strict_weak_order {K} (lt : K → K → bool) : Prop := {
  lt_asym a b : lt a b = true → lt b a = false;
  lt_neg_trans a b c : lt b a = false → lt c b = false → lt c a = false;
}.
End PySort.

(** ** The per-item generation loop *)

Module Generation.
Section generation.
Context {Score TikzDocument : Type}.
Context `{Countable Score, Countable TikzDocument}.

(** [<] on scores. *)
Variable score_lt : Score → Score → bool.
(** The properties [is_rasterizable] and [compiled_with_errors] of an
    artifact. *)
Variable is_rasterizable compiled_with_errors : TikzDocument → bool.
(** The order in which a Python set is iterated: some order of its
    items. *)
Variable set_iter : gset (Score * TikzDocument) → list (Score * TikzDocument).

(** [pipe.simulate(image=image, caption=caption)]: [simulate k] is the
    [k]-th pair the generator yields, [None] when it is exhausted. *)
Variable simulate : nat → option (Score * TikzDocument).
Variable strict : bool.
(** [timeout]: [None] or an integer number of seconds. *)
Variable timeout : option Z.
(** [start] is the value of [time()] before the loop, [clock k] its value
    when iteration [k] evaluates [time() - start >= timeout]. *)
Variable start : Q.
Variable clock : nat → Q.

(** [not tikzpic.compiled_with_errors if strict else tikzpic.is_rasterizable] *)
Definition succeeds (tikzpic : TikzDocument) : bool :=
  if strict then negb (compiled_with_errors tikzpic)
  else is_rasterizable tikzpic.

(** [not timeout or time() - start >= timeout], in iteration [k].
    [not timeout] holds for [None] and for [0]. *)
Definition timeout_over (k : nat) : bool :=
  match timeout with
  | None => true
  | Some t => (t =? 0)%Z || Qle_bool (inject_Z t) (clock k - start)
  end.

(** The state of the loop when it is left: the number of pairs taken from
    the generator, and the variables [success] and [tikzpics]. *)
Record loop_state := LoopState {
  consumed : nat;
  success : bool;
  tikzpics : gset (Score * TikzDocument);
}.

(** The [for] loop of [generate], about to ask the generator for its
    [k]-th pair. *)
Fixpoint generate_loop (fuel k : nat) (success : bool)
    (tikzpics : gset (Score * TikzDocument)) : option loop_state :=
  match fuel with
  | 0 => None
  | S fuel' =>
      match simulate k with
      | None => Some (LoopState k success tikzpics)
      | Some (score, tikzpic) =>
          let tikzpics := tikzpics ∪ {[ (score, tikzpic) ]} in
          let success := if succeeds tikzpic then true else success in
          if success && timeout_over k
          then Some (LoopState (S k) success tikzpics)
          else generate_loop fuel' (S k) success tikzpics
      end
  end.

(** [[tikzpic for _, tikzpic in sorted(tikzpics, key=itemgetter(0))]] *)
Definition finalize (tikzpics : gset (Score * TikzDocument)) : list TikzDocument :=
  (PySort.sorted score_lt fst (set_iter tikzpics)).*2.

Definition generate (fuel : nat) : option (list TikzDocument) :=
  st ← generate_loop fuel 0 false ∅; Some (finalize (tikzpics st)).

(** The pairs seen in the first [n] iterations. *)
Definition observed (n : nat) : list (Score * TikzDocument) :=
  omap simulate (seq 0 n).

(** One of the first [n] pairs holds an artifact that meets the success
    criterion. *)
Definition succeeded_by (n : nat) : Prop :=
  ∃ j score tikzpic,
    j < n ∧ simulate j = Some (score, tikzpic) ∧ succeeds tikzpic = true.

(** The variable [success] is set after the iterations [k] to [n-1] when
    it was [success] before them. *)
Definition flag_after (success : bool) (k n : nat) : Prop :=
  success = true ∨
  ∃ j score tikzpic,
    k ≤ j < n ∧ simulate j = Some (score, tikzpic) ∧ succeeds tikzpic = true.

(** Iteration [k], if it is reached, is the last one: the generator is
    exhausted, or the [break] is taken. *)
Definition leaves_at (k : nat) : Prop :=
  simulate k = None ∨ (succeeded_by (S k) ∧ timeout_over k = true).

End generation.
End Generation.

(** ** The worker prediction runner *)

Module Runner.
Section runner.
Context {Item TikzDocument : Type}.

(** [TikzDocument(code, timeout=None)] and the attribute [code]. *)
Variable TikzDocument_new : string → TikzDocument.
Variable code : TikzDocument → string.
(** The globals [WORLD_SIZE] and [RANK]. *)
Variables WORLD_SIZE RANK : nat.
(** The outcome of loading the model, the tokenizer and the pipeline. *)
Variable load : result unit.
(** The outcome of the call
    [generate(pipe, image=item[key], caption=item["caption"], timeout=timeout, ...)]:
    the batch it returns, or the exception that leaves it. *)
Variable run_generate : Item → result (list TikzDocument).
(** [peers r] is the list [worker_preds] that rank [r] contributes to the
    all-gather. *)
Variable peers : nat → list (list TikzDocument).
(** The cache files on disk: [files path] is the parsed JSON content of
    the file at [path], [None] when [isfile(path)] is false. *)
Variable files : string → option (list (list string)).

(** What a run of [predict] does, in order. *)
Inductive event :=
  | Generate (item : Item)
  | AllGather (worker_preds : list (list TikzDocument))
      (gathered : list (list (list TikzDocument)))
  | Extend (interleaved : list (list TikzDocument))
  | Dump (cache_file : string) (content : list (list string)).

Record try_state := TryState {
  trace : list event;
  worker_preds : list (list TikzDocument);
  raised : option exception;
}.

(** [for item in worker_chunk: worker_preds.append(generate(...))] *)
Fixpoint generate_all (worker_chunk : list Item) (st : try_state) : try_state :=
  match worker_chunk with
  | [] => st
  | item :: worker_chunk' =>
      match run_generate item with
      | Ok tikz =>
          generate_all worker_chunk'
            (TryState (trace st ++ [Generate item]) (worker_preds st ++ [tikz]) None)
      | Raise e =>
          TryState (trace st ++ [Generate item]) (worker_preds st) (Some e)
      end
  end.

(** The body of the [try] statement. *)
Definition try_body (testset : list Item)
    (predictions : list (list TikzDocument)) : try_state :=
  match chunk (drop (length predictions) testset) WORLD_SIZE !! RANK with
  | None => TryState [] [] (Some IndexError)
  | Some worker_chunk => generate_all worker_chunk (TryState [] [] None)
  end.

(** The truth value of [cache_file]: [None] and the empty string are
    false. *)
Definition configured (cache_file : option string) : option string :=
  match cache_file with
  | Some path => if decide (path = EmptyString) then None else Some path
  | None => None
  end.

(** [dist.all_gather_object(gathered := WORLD_SIZE * [None], worker_preds)]:
    slot [r] receives what rank [r] sent. *)
Definition all_gather (worker_preds : list (list TikzDocument)) :
    list (list (list TikzDocument)) :=
  (λ r, if decide (r = RANK) then worker_preds else peers r) <$> seq 0 WORLD_SIZE.

(** [[[TikzDocument(code, timeout=None) for code in sample] for sample in load_json(f)]]
    when [cache_file and isfile(cache_file)], the empty list otherwise. *)
Definition resume (cache_file : option string) : list (list TikzDocument) :=
  match configured cache_file ≫= files with
  | Some samples => (λ sample : list string, TikzDocument_new <$> sample) <$> samples
  | None => []
  end.

(** [dump([[p.code for p in ps] for ps in predictions], f)] when
    [cache_file and RANK == 0]. *)
Definition persist (cache_file : option string)
    (predictions : list (list TikzDocument)) : list event :=
  match configured cache_file with
  | Some path =>
      if decide (RANK = 0)
      then [Dump path ((λ ps : list TikzDocument, code <$> ps) <$> predictions)]
      else []
  | None => []
  end.

(** [predict]: [None] when it does not return (the loop of [interleave]
    runs forever), otherwise what it did and how it ended. *)
Definition predict (testset : list Item) (cache_file : option string) :
    option (list event * result (list (list TikzDocument))) :=
  match load with
  | Raise e => Some ([], Raise e)
  | Ok _ =>
      let predictions := resume cache_file in
      let st := try_body testset predictions in
      (* finally *)
      let gathered := all_gather (worker_preds st) in
      interleaved ← interleave gathered;
      let predictions := predictions ++ interleaved in
      let trace :=
        trace st ++ [AllGather (worker_preds st) gathered; Extend interleaved]
          ++ persist cache_file predictions in
      Some (trace, match raised st with Some e => Raise e | None => Ok predictions end)
  end.

End runner.
End Runner.

(** ** The structural statistics and [compute] *)

Module Metrics.

(** [<] on the samples. *)
Definition Qlt_bool (x y : Q) : bool := negb (Qle_bool y x).

(** [a.argsort()]: the positions of [a], ordered by the values they hold. *)
Definition argsort (a : list Q) : list nat :=
  PySort.sorted Qlt_bool (λ i, default 0%Q (a !! i)) (seq 0 (length a)).

(** [a[positions] = v] *)
Definition assign (a : list Q) (positions : list nat) (v : Q) : list Q :=
  foldl (λ a i, <[i:=v]> a) a positions.

(** [a[idx[i]]] *)
Definition at_rank (a : list Q) (idx : list nat) (i : nat) : result Q :=
  match idx !! i ≫= (a !!.) with Some v => Ok v | None => Raise IndexError end.

(** [int(x)] for [x >= 0]. *)
Definition int (x : Q) : nat := Z.to_nat (Qfloor x).

(** [scipy.stats.mstats.winsorize(a, limits=limit)] on a one-dimensional
    array without masked items, with the default [inclusive=(True, True)]:
    [lowidx = int(limit * n)], [a[idx[:lowidx]] = a[idx[lowidx]]],
    [upidx = n - int(n * limit)], [a[idx[upidx:]] = a[idx[upidx - 1]]].
    The lower part is skipped when [limit] is zero.  The samples, floats in
    Python, are exact rationals here. *)
Definition winsorize (a : list Q) (limit : Q) : result (list Q) :=
  let n := length a in
  let idx := argsort a in
  a ← (if Qeq_bool limit 0 then Ok a else
         let lowidx := int (limit * inject_Z (Z.of_nat n)) in
         v ← at_rank a idx lowidx; Ok (assign a (take lowidx idx) v));
  let upidx := n - int (inject_Z (Z.of_nat n) * limit) in
  (* [idx[upidx - 1]] with [upidx = 0] would count from the end; with
     [limit <= 1/2] that needs [n = 0], where [idx[-1]] raises as well. *)
  v ← at_rank a idx (upidx - 1);
  Ok (assign a (drop upidx idx) v).

(** Winsorizing [n] samples with limits of 5% in terms of ranks: a sample
    of rank [r] (0 for the smallest) ends with the value that had rank
    [clamp_rank n r]; the ranks below [n // 20] take rank [n // 20], the
    ranks from [n - n // 20] on take rank [n - n // 20 - 1]. *)
Definition clamp_rank (n r : nat) : nat :=
  (n `div` 20) `max` (r `min` (n - n `div` 20 - 1)).

(** [a.mean().item()] for a non-empty array. *)
Definition mean (a : list Q) : Q :=
  (foldr Qplus 0 a / inject_Z (Z.of_nat (length a)))%Q.

(** [len(s)] of a string, as a number. *)
Definition len (s : string) : Z := Z.of_nat (String.length s).

Section metrics.
Context {Reference TikzDocument Image : Type}.

Variable code : TikzDocument → string.
Variable is_rasterizable : TikzDocument → bool.
(** [rasterize()]: the image, [None] when there is none. *)
Variable rasterize : TikzDocument → option Image.
(** The flag [measure_throughput] of [load_metrics]. *)
Variable measure_throughput : bool.
(** The six library metrics on the reference and predicted code and
    images: the pairs [(str(metric), metric.compute())] in the order of
    the loop over [metrics.items()]. *)
Variable library_metrics :
  list Reference → list string → list (option Image) → list (string * Q).

(** [x / y] on integers. *)
Definition true_div (x y : Z) : result Q :=
  if decide (y = 0%Z) then Raise ZeroDivisionError
  else Ok (inject_Z x / inject_Z y)%Q.

Definition limit : Q := 5 # 100.

(** [len(preds[-1].code)/sum(len(pred.code) for pred in preds)] *)
Definition token_efficiency (preds : list TikzDocument) : result Q :=
  final ← last_item preds;
  true_div (len (code final)) (foldr Z.add 0%Z ((λ pred, len (code pred)) <$> preds)).

Definition mean_token_efficiency (predictions : list (list TikzDocument)) : result Q :=
  samples ← comprehension token_efficiency predictions;
  w ← winsorize samples limit;
  Ok (mean w).

Definition mean_sampling_throughput (predictions : list (list TikzDocument)) : result Q :=
  w ← winsorize ((λ preds, inject_Z (Z.of_nat (length preds))) <$> predictions) limit;
  Ok (mean w).

(** The statistic [compute] puts into [scores] first. *)
Definition structural_statistic (predictions : list (list TikzDocument)) :
    result (string * Q) :=
  if measure_throughput
  then v ← mean_sampling_throughput predictions; Ok ("MeanSamplingThroughput"%string, v)
  else v ← mean_token_efficiency predictions; Ok ("MeanTokenEfficiency"%string, v).

(** [compute(references, predictions)]: the mapping [scores], or the
    exception that leaves the closure. *)
Definition compute (references : list Reference)
    (predictions : list (list TikzDocument)) : result (gmap string Q) :=
  pred_code ← comprehension (λ pred, final ← last_item pred; Ok (code final)) predictions;
  pred_image ← comprehension (λ pred, final ← last_item pred; Ok (rasterize final)) predictions;
  finals ← comprehension last_item predictions;
  if forallb is_rasterizable finals then
    stat ← structural_statistic predictions;
    Ok (foldl (λ scores kv, <[kv.1 := kv.2]> scores) {[ stat.1 := stat.2 ]}
          (library_metrics references pred_code pred_image))
  else Raise AssertionError.

End metrics.
End Metrics.

(** ** Stub collaborators

    A generation engine that yields a given list of pairs, and artifacts
    whose compilation results are given, for running the functions above on
    concrete inputs. *)

Module Stub.

Record document := Document {
  doc_code : string;
  doc_rasterizable : bool;
  doc_errors : bool;
}.

#[global] Instance document_eq_dec : EqDecision document.
Proof. solve_decision. Defined.

#[global] Instance document_countable : Countable document :=
  inj_countable' (λ d, (doc_code d, doc_rasterizable d, doc_errors d))
    (λ t, Document t.1.1 t.1.2 t.2)
    (λ d, match d with Document _ _ _ => eq_refl end).

Definition good (code : string) : document := Document code true false.
Definition bad (code : string) : document := Document code false true.

(** The engine: [pairs] is everything it yields. *)
Definition engine (pairs : list (Z * document)) (k : nat) : option (Z * document) :=
  pairs !! k.

(** An engine that never stops and never succeeds. *)
Definition endless (k : nat) : option (Z * document) :=
  Some (Z.of_nat k, bad "x").

(** No clock is read when no timeout is given. *)
Definition frozen_clock (k : nat) : Q := 0%Q.

(** [generate] with the stub engine, not strict, without a timeout. *)
Definition generate_loop (pairs : list (Z * document)) (fuel : nat) :
    option (Generation.loop_state (Score := Z) (TikzDocument := document)) :=
  Generation.generate_loop doc_rasterizable doc_errors (engine pairs) false None
    0%Q frozen_clock fuel 0 false ∅.

Definition generate (pairs : list (Z * document)) (fuel : nat) : option (list document) :=
  Generation.generate Z.ltb doc_rasterizable doc_errors elements (engine pairs)
    false None 0%Q frozen_clock fuel.

(** Two failing candidates, then two that rasterize, with rising scores. *)
Definition rising_pairs : list (Z * document) :=
  [(1%Z, bad "a"); (2%Z, bad "b"); (3%Z, good "c"); (4%Z, good "d")].


(** A dataset item is its caption here; the engine succeeds at once, with
    one artifact whose code is the caption. *)
Definition run_generate (item : string) : result (list document) :=
  match generate [(1%Z, good item)] 1 with
  | Some batch => Ok batch
  | None => Raise (OtherError "no result")
  end.

(** The batch of an item when the engine succeeds at once. *)
Definition batch_of (item : string) : list document := [good item].

(** The same, but the engine raises on the item ["c"]. *)
Definition failing_run_generate (item : string) : result (list document) :=
  if decide (item = "c") then Raise (OtherError "engine failure") else run_generate item.

(** Every other rank sends the batches of its chunk of [remaining]. *)
Definition peer_batches (remaining : list string) (world_size r : nat) :
    list (list document) :=
  batch_of <$> slice_step remaining r world_size.

(** No cache file yet, and a cache file with one entry. *)
Definition no_files (path : string) : option (list (list string)) := None.
Definition one_cached (path : string) : option (list (list string)) :=
  if decide (path = "cache.json") then Some [["a"]] else None.

(** [predict] with [WORLD_SIZE = 2] on rank 0, with the cache path
    ["cache.json"]. *)
Definition predict (run : string → result (list document))
    (files : string → option (list (list string))) (testset : list string) :=
  Runner.predict good doc_code 2 0 (Ok ()) run
    (peer_batches (drop (length (Runner.resume good files (Some "cache.json"))) testset) 2)
    files testset (Some "cache.json").

(** The collaborators of [compute]: an artifact has an image exactly when it
    is rasterizable, and the library metrics give one score. *)
Definition rasterize (d : document) : option unit :=
  if doc_rasterizable d then Some () else None.

Definition library_metrics (references : list unit) (pred_code : list string)
    (pred_image : list (option unit)) : list (string * Q) :=
  [("TexEditDistance", 0%Q)].

Definition compute (predictions : list (list document)) : result (gmap string Q) :=
  Metrics.compute doc_code doc_rasterizable rasterize false library_metrics [] predictions.

(** Three items whose final artifacts hold 1 of 10, 1 of 5 and 9 of 10 of
    the characters of their candidates. *)
Definition three_items : list (list document) :=
  [[good "aaaaaaaaa"; good "b"]; [good "aaaa"; good "b"]; [good "a"; good "bbbbbbbbb"]].

Definition three_ratios : list Q := [1 # 10; 1 # 5; 9 # 10].

(** Twenty samples, among them one low and one high outlier. *)
Definition twenty_samples : list Q :=
  (λ k, inject_Z (Z.of_nat k)) <$>
    [5; 3; 100; 7; 8; 9; 10; 11; 12; 13; 14; 15; 16; 17; 18; 19; 1; 2; 4; 6].

End Stub.

(** ** The top-level driver: model specifications and flags *)

Module Driver.
Import Stdlib.Strings.Ascii.

(** [c in s] for a character [c]. *)
Fixpoint contains (c : ascii) (s : string) : bool :=
  match s with
  | EmptyString => false
  | String c' s' => if decide (c' = c) then true else contains c s'
  end.

(** [s.count(c)] for a character [c]. *)
Fixpoint count (c : ascii) (s : string) : nat :=
  match s with
  | EmptyString => 0
  | String c' s' => (if decide (c' = c) then 1 else 0) + count c s'
  end.

(** [s.split(sep)] for a separator of one character: the pieces between
    the separators, [n + 1] pieces for [n] separators. *)
Fixpoint split (sep : ascii) (s : string) : list string :=
  match s with
  | EmptyString => [EmptyString]
  | String c s' =>
      if decide (c = sep) then EmptyString :: split sep s'
      else match split sep s' with
           | piece :: pieces => String c piece :: pieces
           | [] => [String c EmptyString]
           end
  end.

(** [sep.join(pieces)] *)
Fixpoint join (sep : ascii) (pieces : list string) : string :=
  match pieces with
  | [] => EmptyString
  | [piece] => piece
  | piece :: pieces' => piece +:+ String sep (join sep pieces')
  end.

(** [s.endswith(suffix)] *)
Definition endswith (s suffix : string) : bool :=
  let n := String.length s in
  let m := String.length suffix in
  if decide (m ≤ n) then bool_decide (String.substring (n - m) m s = suffix) else false.

(** The exceptions of the driver before any model is loaded. *)
Inductive error :=
  | ValueError
  | AttributeError.

(** [dict(elements)] for an iterable of lists of strings: every element
    must have exactly two items, and a later key replaces an earlier one. *)
Fixpoint dict (elements : list (list string)) (d : gmap string string) :
    error + gmap string string :=
  match elements with
  | [] => inr d
  | [k; v] :: elements' => dict elements' (<[k:=v]> d)
  | _ :: _ => inl ValueError
  end.

(** [dict(part.split('=') for part in item.split(',') if '=' in part)] *)
Definition model_parts (item : string) : error + gmap string string :=
  dict (split "="%char <$> filter (λ part, contains "="%char part = true) (split ","%char item)) ∅.

(** What the driver does with one item of [args.path]: it reads
    precomputed predictions from [path], or calls [predict] with [path] as
    base model and with the LoRA weights when they are given and not
    empty. *)
Inductive plan :=
  | LoadPredictions (model_name : option string) (path : string)
  | RunPredict (model_name : option string) (base_model : string)
      (lora_weights_path : option string).

(** The body of the loop over [args.path] up to the choice between the
    predictions file and [predict]; [None.endswith] raises
    [AttributeError]. *)
Definition plan_item (item : string) : error + plan :=
  match model_parts item with
  | inl e => inl e
  | inr model_parts =>
      let model_name := model_parts !! "MODEL" in
      let lora_weights := model_parts !! "LORA_WEIGHTS" in
      match model_parts !! "PATH" with
      | None => inl AttributeError
      | Some path =>
          if endswith path "json" then inr (LoadPredictions model_name path)
          else inr (RunPredict model_name path
                      (lora_weights ≫= λ w, if decide (w = EmptyString) then None else Some w))
      end
  end.

(** [metric_type = "model" if timeout else "fast"] in [predict]. *)
Definition metric_type (timeout : option Z) : string :=
  match timeout with
  | Some t => if (t =? 0)%Z then "fast" else "model"
  | None => "fast"
  end.

(** [measure_throughput=args.timeout is not None] in the driver. *)
Definition measure_throughput (timeout : option Z) : bool :=
  match timeout with Some _ => true | None => false end.

End Driver.

(** ** The patch similarity metric (evaluate/patchsim.py) *)

Module PatchSim.

(** [clip(self.feature_layer, -depth, depth-1) % depth] for [depth >= 1]:
    [clip] is [min(max(x, lo), hi)], [%] takes the sign of the divisor. *)
Definition layer_index (feature_layer depth : Z) : Z :=
  ((feature_layer `max` (- depth)) `min` (depth - 1)) `mod` depth.

Section patchsim.
Context {Image : Type}.

(** [self.get_similarity(img1, img2)], a float, here a rational. *)
Variable get_similarity : Image → Image → Q.

(** The states [score] and [n_samples] of the metric.  [score] is a
    tensor of one 64-bit float in the source; here it is the exact sum, a
    rational, so the rounding of each addition is left out. *)
Record state := State {
  score : Q;
  n_samples : nat;
}.

(** The states as [add_state] sets them. *)
Definition initial : state := State 0 0.

(** An argument of [update]: one image or a list of images. *)
Inductive images :=
  | One (img : Image)
  | Many (imgs : list Image).

(** [for pair in zip(img1, img2): self.score += ...; self.n_samples += 1] *)
Definition accumulate (pairs : list (Image * Image)) (st : state) : state :=
  foldl (λ st pair, State (score st + get_similarity pair.1 pair.2) (S (n_samples st)))
    st pairs.

(** [update(img1, img2)]: the new state, or the failed assertion, which
    comes before any change of the state. *)
Definition update (img1 img2 : images) (st : state) : result state :=
  match img1, img2 with
  | One a, One b => Ok (accumulate [(a, b)] st)
  | Many l1, Many l2 =>
      if decide (length l1 = length l2) then Ok (accumulate (zip l1 l2) st)
      else Raise AssertionError
  | _, _ => Raise AssertionError
  end.

(** [compute()]: [score / n_samples]; [None] stands for the NaN of [0 / 0]. *)
Definition compute (st : state) : option Q :=
  if decide (n_samples st = 0) then None
  else Some (score st / inject_Z (Z.of_nat (n_samples st)))%Q.

End patchsim.
End PatchSim.

(** ** Positions in the grid of chunks *)

Module Grid.
Section grid.
Context {A : Type}.

(** [chunks[b][a]]: item [a] of chunk [b], the item round [a] of
    [interleave] reads in column [b]. *)
Definition cell (chunks : list (list A)) (a b : nat) : option A :=
  chunks !! b ≫= (.!! a).

(** The item [interleave] appends in step [p], counting the steps of all
    rounds from 0: round [p // len(chunks)], column [p % len(chunks)]. *)
Definition step (chunks : list (list A)) (p : nat) : option A :=
  cell chunks (p `div` length chunks) (p `mod` length chunks).

End grid.
End Grid.

(** * Properties *)

(** ** Striped chunks and their interleaving *)

Example chunk_7_3 : chunk [0; 1; 2; 3; 4; 5; 6] 3 = [[0; 3; 6]; [1; 4]; [2; 5]].
Proof. reflexivity. Qed.

Example interleave_7_3 :
  interleave (chunk [0; 1; 2; 3; 4; 5; 6] 3) = Some [0; 1; 2; 3; 4; 5; 6].
Proof. reflexivity. Qed.

(** A first chunk shorter than the others ends the reassembly early. *)
Example interleave_short_first :
  interleave [[0]; [1; 4]; [2; 5]] = Some [0; 1; 2].
Proof. reflexivity. Qed.

Section striping_facts.
Context {A : Type}.
Implicit Types (l acc : list A) (chunks : list (list A)).

Lemma omap_seq_lookup {B} (f : nat → option B) s m k :
  (∀ j, s ≤ j < s + m → is_Some (f j)) →
  omap f (seq s m) !! k = if decide (k < m) then f (s + k) else None.
Proof.
  revert s k. induction m as [|m IH]; intros s k Hf; [done|].
  destruct (Hf s ltac:(lia)) as [y Hy]. cbn. rewrite Hy.
  destruct k as [|k]; cbn.
  - by rewrite Nat.add_0_r.
  - rewrite IH by (intros; apply Hf; lia).
    replace (S s + k) with (s + S k) by lia.
    repeat case_decide; done || lia.
Qed.

Lemma slice_length_lt len i n k :
  1 ≤ n → k < slice_length len i n ↔ i + k * n < len.
Proof.
  intros Hn. unfold slice_length. case_decide; [lia|].
  pose proof (Nat.div_mod_eq (len - i - 1) n) as Hdiv.
  pose proof (Nat.mod_upper_bound (len - i - 1) n ltac:(lia)).
  split; intros; nia.
Qed.

(** [l[i::n][k]] is [l[i + k*n]]. *)
Lemma slice_step_lookup l i n k :
  1 ≤ n → slice_step l i n !! k = l !! (i + k * n).
Proof.
  intros Hn. unfold slice_step. rewrite omap_seq_lookup.
  - case_decide as Hk; [done|].
    symmetry. apply lookup_ge_None.
    rewrite slice_length_lt in Hk by done. lia.
  - intros j [_ Hj]. apply lookup_lt_is_Some.
    by apply slice_length_lt.
Qed.

Lemma slice_step_length l i n :
  1 ≤ n → length (slice_step l i n) = slice_length (length l) i n.
Proof.
  intros Hn.
  destruct (decide (length (slice_step l i n) < slice_length (length l) i n))
    as [Hlt|Hge].
  - apply slice_length_lt in Hlt; [|done].
    apply lookup_lt_is_Some in Hlt. rewrite <- slice_step_lookup in Hlt by done.
    apply lookup_lt_is_Some in Hlt. lia.
  - destruct (decide (slice_length (length l) i n < length (slice_step l i n)))
      as [Hlt|]; [|lia].
    apply lookup_lt_is_Some in Hlt. rewrite slice_step_lookup in Hlt by done.
    apply lookup_lt_is_Some, slice_length_lt in Hlt; [lia|done].
Qed.

Lemma chunk_lookup l n i :
  i < n → chunk l n !! i = Some (slice_step l i n).
Proof.
  intros Hi. unfold chunk. rewrite list_lookup_fmap, lookup_seq_lt by done.
  done.
Qed.

Lemma chunk_length l n : length (chunk l n) = n.
Proof. unfold chunk. by rewrite length_fmap, length_seq. Qed.

(** Strided slicing puts the longer chunks first. *)
Lemma slice_length_antitone len i j n :
  1 ≤ n → i ≤ j → slice_length len j n ≤ slice_length len i n.
Proof.
  intros Hn Hij.
  destruct (decide (slice_length len j n ≤ slice_length len i n)); [done|].
  assert (slice_length len i n < slice_length len j n) as Hlt by lia.
  apply slice_length_lt in Hlt; [|done].
  assert (¬ slice_length len i n < slice_length len i n) as Hirr by lia.
  rewrite slice_length_lt in Hirr by done. lia.
Qed.

(** *** One round *)

Lemma extend_round_app idx chunks1 chunks2 acc :
  extend_round idx (chunks1 ++ chunks2) acc =
    match extend_round idx chunks1 acc with
    | (acc', false) => extend_round idx chunks2 acc'
    | (acc', true) => (acc', true)
    end.
Proof.
  revert acc. induction chunks1 as [|c chunks1 IH]; intros acc; [done|].
  cbn. destruct (c !! idx); [apply IH|done].
Qed.

(** The first [r] striped chunks all have an item [idx] when
    [idx * n + r <= len(l)]; the round appends [l[idx*n : idx*n + r]]. *)
Lemma extend_round_striped l n idx r acc :
  1 ≤ n → idx * n + r ≤ length l →
  extend_round idx ((λ i, slice_step l i n) <$> seq 0 r) acc =
    (acc ++ take r (drop (idx * n) l), false).
Proof.
  intros Hn. induction r as [|r IH]; intros Hr.
  - cbn. by rewrite app_nil_r.
  - rewrite seq_S, fmap_app, extend_round_app, IH by lia. cbn.
    rewrite slice_step_lookup by done.
    destruct (lookup_lt_is_Some_2 l (r + idx * n) ltac:(lia)) as [x Hx].
    rewrite Hx. f_equal.
    rewrite <- (assoc_L (++)). f_equal.
    symmetry. apply take_S_r.
    rewrite lookup_drop. by replace (idx * n + r) with (r + idx * n) by lia.
Qed.

Lemma extend_round_chunk l n idx acc :
  1 ≤ n → idx * n ≤ length l →
  extend_round idx (chunk l n) acc =
    (acc ++ take n (drop (idx * n) l), bool_decide (length l < idx * n + n)).
Proof.
  intros Hn Hidx. case_bool_decide as Hlen.
  - (* the round is partial: chunk [r] has no item [idx] *)
    set (r := length l - idx * n).
    assert (seq 0 n = seq 0 r ++ seq r (S (n - S r))) as Hseq.
    { change (seq r) with (seq (0 + r)).
      rewrite <- (seq_app r (S (n - S r)) 0). f_equal. lia. }
    unfold chunk. rewrite Hseq, fmap_app, extend_round_app.
    rewrite extend_round_striped by lia. cbn.
    rewrite slice_step_lookup by done.
    rewrite (lookup_ge_None_2 l) by lia.
    f_equal. f_equal.
    rewrite !take_ge; [done| |]; rewrite length_drop; lia.
  - apply extend_round_striped; lia.
Qed.

(** *** The loop *)

Lemma interleave_loop_nil fuel idx acc :
  interleave_loop fuel idx [] acc = None.
Proof. revert idx. induction fuel as [|fuel IH]; intros idx; [done|apply IH]. Qed.

Lemma interleave_loop_mono fuel fuel' idx chunks acc r :
  interleave_loop fuel idx chunks acc = Some r → fuel ≤ fuel' →
  interleave_loop fuel' idx chunks acc = Some r.
Proof.
  revert fuel' idx acc. induction fuel as [|fuel IH]; intros fuel' idx acc; [done|].
  intros Hr Hle. destruct fuel' as [|fuel']; [lia|]. cbn in *.
  destruct (extend_round idx chunks acc) as [acc' [|]]; [done|].
  apply IH; [done|lia].
Qed.

Lemma extend_round_raises idx c chunks acc :
  length c ≤ idx → (extend_round idx (c :: chunks) acc).2 = true.
Proof. intros Hidx. cbn. by rewrite lookup_ge_None_2. Qed.

(** Round [len(chunks[0])] raises at the latest. *)
Lemma interleave_loop_fuel fuel idx c chunks acc :
  length c - idx < fuel → is_Some (interleave_loop fuel idx (c :: chunks) acc).
Proof.
  revert idx acc. induction fuel as [|fuel IH]; intros idx acc Hlen.
  - exfalso. lia.
  - cbn [interleave_loop].
    destruct (extend_round idx (c :: chunks) acc) as [acc' b] eqn:Hround.
    destruct b; [done|].
    apply IH.
    destruct (decide (length c ≤ idx)) as [Hle|]; [|lia].
    apply (extend_round_raises idx c chunks acc) in Hle.
    rewrite Hround in Hle. done.
Qed.

Lemma interleave_fuel fuel chunks r :
  interleave_loop fuel 0 chunks [] = Some r → interleave chunks = Some r.
Proof.
  intros Hr. destruct chunks as [|c chunks].
  - by rewrite interleave_loop_nil in Hr.
  - unfold interleave.
    destruct (interleave_loop_fuel (S (length c)) 0 c chunks []) as [r' Hr'];
      [lia|].
    rewrite Hr'. f_equal.
    apply (interleave_loop_mono _ (fuel `max` S (length c))) in Hr; [|lia].
    apply (interleave_loop_mono _ (fuel `max` S (length c))) in Hr'; [|lia].
    congruence.
Qed.

Lemma interleave_terminates chunks :
  chunks ≠ [] → is_Some (interleave chunks).
Proof.
  destruct chunks as [|c chunks]; [done|]. intros _.
  apply interleave_loop_fuel. lia.
Qed.

Lemma interleave_loop_chunk l n fuel idx :
  1 ≤ n → idx * n ≤ length l → length l < (idx + fuel) * n →
  interleave_loop fuel idx (chunk l n) (take (idx * n) l) = Some l.
Proof.
  intros Hn. revert idx. induction fuel as [|fuel IH]; intros idx Hidx Hfuel.
  - exfalso. lia.
  - cbn [interleave_loop]. rewrite extend_round_chunk by done.
    case_bool_decide as Hlen.
    + f_equal. rewrite (take_ge (drop (idx * n) l)); [apply take_drop|].
      rewrite length_drop. lia.
    + rewrite take_take_drop.
      replace (idx * n + n) with (S idx * n) by lia.
      apply IH; lia.
Qed.

Lemma interleave_chunk l n : 1 ≤ n → interleave (chunk l n) = Some l.
Proof.
  intros Hn. apply (interleave_fuel (S (length l))).
  apply (interleave_loop_chunk l n (S (length l)) 0); [done|lia|nia].
Qed.

Lemma equal_lengths_chunk l n :
  1 ≤ n → equal_lengths (chunk l n) → length l `mod` n = 0.
Proof.
  intros Hn Heq.
  assert (length (slice_step l 0 n) = length (slice_step l (n - 1) n)) as Hlen.
  { apply Heq; apply list_elem_of_lookup; eexists; apply chunk_lookup; lia. }
  rewrite !slice_step_length in Hlen by done.
  pose proof (Nat.div_mod_eq (length l) n) as Hdiv.
  pose proof (Nat.mod_upper_bound (length l) n ltac:(lia)) as Hmod.
  destruct (decide (length l `mod` n = 0)) as [|Hr]; [done|exfalso].
  set (q := length l `div` n) in *. set (r := length l `mod` n) in *.
  assert (q < slice_length (length l) 0 n) as H0
    by (apply slice_length_lt; [done|nia]).
  assert (¬ q < slice_length (length l) (n - 1) n) as H1
    by (rewrite slice_length_lt by done; nia).
  lia.
Qed.

(** *** Lists and generators of chunks *)

Lemma interleave_over_sequence fuel idx chunks acc :
  interleave_over fuel idx (Sequence chunks) acc = interleave_loop fuel idx chunks acc.
Proof.
  revert idx acc. induction fuel as [|fuel IH]; intros idx acc; [done|].
  cbn. destruct (extend_round idx chunks acc) as [acc' [|]]; [done|apply IH].
Qed.

(** An exhausted generator gives every round nothing to take, and no round
    raises. *)
Lemma interleave_over_exhausted fuel idx acc :
  interleave_over fuel idx (Generator []) acc = None.
Proof. revert idx. induction fuel as [|fuel IH]; intros idx; [done|apply IH]. Qed.

(** A generator is gone through in round [idx] only: the loop returns
    what that round collected when it raised, and runs on otherwise. *)
Lemma interleave_over_generator fuel idx chunks acc :
  interleave_over (S fuel) idx (Generator chunks) acc =
    match extend_round idx chunks acc with
    | (acc', true) => Some acc'
    | (_, false) => None
    end.
Proof.
  cbn. destruct (extend_round idx chunks acc) as [acc' [|]]; [done|].
  apply interleave_over_exhausted.
Qed.

(** A round raises exactly when some chunk has no item [idx]. *)
Lemma extend_round_raises_iff idx chunks acc :
  (extend_round idx chunks acc).2 = true ↔ ∃ c, c ∈ chunks ∧ length c ≤ idx.
Proof.
  revert acc. induction chunks as [|c chunks IH]; intros acc; cbn.
  - split; [done|]. intros (c & Hc & _). by apply elem_of_nil in Hc.
  - destruct (c !! idx) as [x|] eqn:Hx.
    + rewrite IH. apply lookup_lt_Some in Hx. split.
      * intros (c' & Hc' & Hlen). exists c'. split; [by right|done].
      * intros (c' & [->|Hc']%elem_of_cons & Hlen); [lia|]. by exists c'.
    + apply lookup_ge_None in Hx. split; [|done]. intros _. exists c. split; [by left|done].
Qed.

Lemma interleave_loop_bound fuel idx c chunks acc :
  c ∈ chunks → length c - idx < fuel → is_Some (interleave_loop fuel idx chunks acc).
Proof.
  intros Hc. revert idx acc. induction fuel as [|fuel IH]; intros idx acc Hlen.
  - exfalso. lia.
  - cbn [interleave_loop].
    destruct (extend_round idx chunks acc) as [acc' b] eqn:Hround.
    destruct b; [done|]. apply IH.
    destruct (decide (length c ≤ idx)) as [Hle|]; [|lia].
    assert ((extend_round idx chunks acc).2 = true) as Hraise
      by (apply extend_round_raises_iff; by exists c).
    by rewrite Hround in Hraise.
Qed.

End striping_facts.

(** ** Sorting *)

Section pysort_facts.
Context {K B : Type}.
Variable lt : K → K → bool.
Variable key : B → K.
Hypothesis lt_order : PySort.strict_weak_order lt.

Lemma insert_by_perm x l : PySort.insert_by lt key x l ≡ₚ x :: l.
Proof.
  induction l as [|y l IH]; cbn; [done|].
  destruct (lt (key y) (key x)); [|done].
  rewrite IH. apply Permutation_swap.
Qed.

Lemma sorted_perm l : PySort.sorted lt key l ≡ₚ l.
Proof.
  induction l as [|x l IH]; cbn; [done|].
  fold (PySort.sorted lt key l). by rewrite insert_by_perm, IH.
Qed.

Lemma insert_by_ascending x l :
  PySort.ascending lt key l → PySort.ascending lt key (PySort.insert_by lt key x l).
Proof.
  unfold PySort.ascending.
  induction l as [|y l IH]; intros Hl; cbn.
  - by repeat constructor.
  - apply StronglySorted_inv in Hl as [Hl Hy].
    destruct (lt (key y) (key x)) eqn:Hyx.
    + constructor; [by apply IH|].
      rewrite insert_by_perm. constructor; [|done].
      by apply (PySort.lt_asym lt lt_order).
    + constructor; [by constructor|].
      constructor; [done|].
      eapply Forall_impl; [exact Hy|]. cbn. intros z Hz.
      by apply (PySort.lt_neg_trans lt lt_order _ (key y)).
Qed.

Lemma sorted_ascending l : PySort.ascending lt key (PySort.sorted lt key l).
Proof.
  induction l as [|x l IH]; cbn.
  - constructor.
  - by apply insert_by_ascending.
Qed.

(** The last item of an ascending list has a largest key. *)
Lemma ascending_last l z x :
  PySort.ascending lt key l → last l = Some z → x ∈ l →
  lt (key z) (key x) = false.
Proof.
  unfold PySort.ascending. intros Hl Hz Hx.
  induction Hl as [|y l Hl IH Hy]; [done|].
  destruct l as [|y' l].
  - cbn in Hz. apply list_elem_of_singleton in Hx. simplify_eq.
    destruct (lt (key z) (key z)) eqn:Hzz; [|done].
    by rewrite (PySort.lt_asym lt lt_order _ _ Hzz) in Hzz.
  - change (last (y :: y' :: l)) with (last (y' :: l)) in Hz.
    apply elem_of_cons in Hx as [->|Hx]; [|by apply IH].
    rewrite Forall_forall in Hy. apply Hy.
    apply list_elem_of_lookup. exists (length l).
    by rewrite last_lookup in Hz.
Qed.

End pysort_facts.

(** ** The generation loop *)

Section generation_facts.
Context {Score TikzDocument : Type}.
Context `{Countable Score, Countable TikzDocument}.
Variable is_rasterizable compiled_with_errors : TikzDocument → bool.
Variable simulate : nat → option (Score * TikzDocument).
Variable strict : bool.
Variable timeout : option Z.
Variable start : Q.
Variable clock : nat → Q.

Local Abbreviation succeeds := (Generation.succeeds is_rasterizable compiled_with_errors strict).
Local Abbreviation timeout_over := (Generation.timeout_over timeout start clock).
Local Abbreviation generate_loop :=
  (Generation.generate_loop is_rasterizable compiled_with_errors simulate strict
     timeout start clock).
Local Abbreviation succeeded_by :=
  (Generation.succeeded_by is_rasterizable compiled_with_errors simulate strict).
Local Abbreviation observed := (Generation.observed simulate).

Local Abbreviation flag_after :=
  (Generation.flag_after is_rasterizable compiled_with_errors simulate strict).

Lemma flag_after_step success k n score tikzpic :
  simulate k = Some (score, tikzpic) → S k ≤ n →
  flag_after (if succeeds tikzpic then true else success) (S k) n ↔
  flag_after success k n.
Proof.
  intros Hk Hn. unfold Generation.flag_after. split.
  - intros [Hs|(j & s & t & ? & ? & ?)].
    + destruct (succeeds tikzpic) eqn:Ht; [|by left].
      right. exists k, score, tikzpic. split; [lia|done].
    + right. exists j, s, t. split; [lia|done].
  - intros [->|(j & s & t & ? & Hj & Ht)].
    + left. by destruct (succeeds tikzpic).
    + destruct (decide (j = k)) as [->|].
      * left. rewrite Hk in Hj. simplify_eq. by rewrite Ht.
      * right. exists j, s, t. split; [lia|done].
Qed.

Lemma generate_loop_spec fuel k success set st :
  generate_loop fuel k success set = Some st →
  k ≤ Generation.consumed st ∧
  (∀ j, k ≤ j < Generation.consumed st → is_Some (simulate j)) ∧
  Generation.tikzpics st =
    set ∪ list_to_set (omap simulate (seq k (Generation.consumed st - k))) ∧
  (Generation.success st = true ↔ flag_after success k (Generation.consumed st)) ∧
  (simulate (Generation.consumed st) = None ∨
   ∃ j, Generation.consumed st = S j ∧ k ≤ j ∧
     Generation.success st = true ∧ timeout_over j = true).
Proof.
  revert k success set. induction fuel as [|fuel IH]; intros k success set; [done|].
  cbn [Generation.generate_loop].
  destruct (simulate k) as [[score tikzpic]|] eqn:Hk.
  - destruct (_ && _) eqn:Hstop.
    + intros [= <-]. cbn. apply andb_true_iff in Hstop as [Hs Hover].
      replace (S k - k) with 1 by lia. cbn. rewrite Hk. cbn.
      split_and!; [lia| | | |right; by exists k].
      * intros j Hj. by replace j with k by lia.
      * set_solver.
      * rewrite <- (flag_after_step success k (S k) score tikzpic) by done.
        unfold Generation.flag_after. split; [by left|].
        intros [?|(j & ? & ? & ? & _)]; [done|lia].
    + intros Hst. apply IH in Hst as (Hle & Hsome & Hset & Hflag & Hexit).
      split; [lia|]. split; [|split; [|split]].
      * intros j Hj. destruct (decide (j = k)) as [->|]; [by rewrite Hk|].
        apply Hsome. lia.
      * rewrite Hset.
        replace (Generation.consumed st - k)
          with (S (Generation.consumed st - S k)) by lia.
        cbn. rewrite Hk. cbn. set_solver.
      * by rewrite Hflag, flag_after_step.
      * destruct Hexit as [?|(j & ? & ? & ?)]; [by left|right].
        exists j. split; [done|]. split; [lia|done].
  - intros [= <-]. cbn. replace (k - k) with 0 by lia. cbn.
    split_and!; [done| | | |by left].
    + intros; lia.
    + set_solver.
    + unfold Generation.flag_after. split; [by left|].
      intros [?|(j & ? & ? & ? & _)]; [done|lia].
Qed.

Lemma generate_loop_halts fuel k success set k0 :
  k ≤ k0 → k0 - k < fuel →
  simulate k0 = None ∨ (flag_after success k (S k0) ∧ timeout_over k0 = true) →
  ∃ st, generate_loop fuel k success set = Some st ∧ Generation.consumed st ≤ S k0.
Proof.
  revert k success set. induction fuel as [|fuel IH]; intros k success set Hk Hfuel Hleave.
  { exfalso. lia. }
  cbn [Generation.generate_loop].
  destruct (simulate k) as [[score tikzpic]|] eqn:Hsim.
  - destruct (_ && _) eqn:Hstop.
    + eexists. split; [done|]. cbn. lia.
    + destruct (decide (k = k0)) as [->|].
      * exfalso. destruct Hleave as [Hnone|[Hflag Hover]]; [congruence|].
        apply (flag_after_step success k0 (S k0) score tikzpic) in Hflag; [|done..].
        destruct Hflag as [Hs|(j & ? & ? & ? & _)]; [|lia].
        rewrite Hs, Hover in Hstop. done.
      * apply IH; [lia..|].
        destruct Hleave as [?|[Hflag ?]]; [by left|right].
        split; [|done].
        by apply (flag_after_step success k (S k0) score tikzpic Hsim ltac:(lia)).
  - eexists. split; [done|]. cbn. lia.
Qed.

Lemma flag_after_0 n : flag_after false 0 n ↔ succeeded_by n.
Proof.
  unfold Generation.flag_after, Generation.succeeded_by. split.
  - intros [?|(j & s & t & ? & ?)]; [done|]. exists j, s, t. split; [lia|done].
  - intros (j & s & t & ? & ?). right. exists j, s, t. split; [lia|done].
Qed.

Lemma generate_loop_tikzpics fuel st p :
  generate_loop fuel 0 false ∅ = Some st →
  p ∈ Generation.tikzpics st ↔ p ∈ observed (Generation.consumed st).
Proof.
  intros Hst. apply generate_loop_spec in Hst as (_ & _ & -> & _).
  unfold Generation.observed. rewrite Nat.sub_0_r. set_solver.
Qed.

Lemma elem_of_observed n p :
  p ∈ observed n ↔ ∃ j, j < n ∧ simulate j = Some p.
Proof.
  unfold Generation.observed. rewrite list_elem_of_omap. split.
  - intros (j & Hj & ?). apply elem_of_seq in Hj. exists j. split; [lia|done].
  - intros (j & ? & ?). exists j. split; [|done]. apply elem_of_seq. lia.
Qed.

End generation_facts.

(** ** Interleaving commutes with a map over the items *)

Section interleave_fmap.
Context {A B : Type} (f : A → B).

Lemma extend_round_fmap idx (chunks : list (list A)) (acc : list A) :
  extend_round idx ((λ c : list A, f <$> c) <$> chunks) (f <$> acc) =
    ((f <$> (extend_round idx chunks acc).1), (extend_round idx chunks acc).2).
Proof.
  revert acc. induction chunks as [|c chunks IH]; intros acc; [done|].
  cbn. rewrite list_lookup_fmap. destruct (c !! idx) as [x|]; cbn; [|done].
  rewrite <- IH. by rewrite fmap_app.
Qed.

Lemma interleave_loop_fmap fuel idx (chunks : list (list A)) (acc : list A) :
  interleave_loop fuel idx ((λ c : list A, f <$> c) <$> chunks) (f <$> acc) =
    (λ l : list A, f <$> l) <$> interleave_loop fuel idx chunks acc.
Proof.
  revert idx acc. induction fuel as [|fuel IH]; intros idx acc; [done|].
  cbn [interleave_loop]. rewrite extend_round_fmap.
  destruct (extend_round idx chunks acc) as [acc' [|]]; cbn; [done|apply IH].
Qed.

Lemma interleave_fmap (chunks : list (list A)) :
  interleave ((λ c : list A, f <$> c) <$> chunks) = (λ l : list A, f <$> l) <$> interleave chunks.
Proof.
  destruct chunks as [|c chunks]; [done|].
  unfold interleave. cbn [fmap list_fmap]. rewrite length_fmap.
  apply (interleave_loop_fmap _ 0 (c :: chunks) []).
Qed.

End interleave_fmap.

(** ** The prediction runner *)

Section runner_facts.
Context {Item TikzDocument : Type}.
Variable TikzDocument_new : string → TikzDocument.
Variable code : TikzDocument → string.
Variables WORLD_SIZE RANK : nat.
Variable load : result unit.
Variable run_generate : Item → result (list TikzDocument).
Variable peers : nat → list (list TikzDocument).
Variable files : string → option (list (list string)).
(** The batches of the calls that return. *)
Variable gen : Item → list TikzDocument.

Local Abbreviation generate_all := (Runner.generate_all run_generate).
Local Abbreviation all_gather := (Runner.all_gather WORLD_SIZE RANK peers).

Lemma generate_all_ok (worker_chunk : list Item) st :
  (∀ item, item ∈ worker_chunk → run_generate item = Ok (gen item)) →
  Runner.raised st = None →
  generate_all worker_chunk st =
    Runner.TryState (Runner.trace st ++ (Runner.Generate <$> worker_chunk))
      (Runner.worker_preds st ++ (gen <$> worker_chunk)) None.
Proof.
  revert st. induction worker_chunk as [|item worker_chunk IH]; intros st Hok Hst.
  - cbn. rewrite !app_nil_r. destruct st; cbn in *; by subst.
  - cbn. rewrite Hok by left. rewrite IH; [|intros; apply Hok; by right|done].
    cbn. by rewrite <- !(assoc_L (++)).
Qed.

Lemma generate_all_raise (finished rest : list Item) item e st :
  (∀ i, i ∈ finished → run_generate i = Ok (gen i)) →
  run_generate item = Raise e →
  Runner.raised st = None →
  generate_all (finished ++ item :: rest) st =
    Runner.TryState (Runner.trace st ++ (Runner.Generate <$> finished ++ [item]))
      (Runner.worker_preds st ++ (gen <$> finished)) (Some e).
Proof.
  revert st. induction finished as [|i finished IH]; intros st Hok Hitem Hst.
  - cbn. by rewrite Hitem, app_nil_r.
  - cbn. rewrite Hok by left. rewrite IH; [|intros; apply Hok; by right|done..].
    cbn. by rewrite <- !(assoc_L (++)).
Qed.

Lemma all_gather_nonempty worker_preds :
  1 ≤ WORLD_SIZE → all_gather worker_preds ≠ [].
Proof.
  intros HW Hnil. apply (f_equal length) in Hnil.
  unfold Runner.all_gather in Hnil. rewrite length_fmap, length_seq in Hnil.
  cbn in Hnil. lia.
Qed.

(** When every rank sends the batches of its own chunk, the slots of the
    gather are the chunks of the batches. *)
Lemma all_gather_chunks (l worker_chunk : list Item) :
  chunk l WORLD_SIZE !! RANK = Some worker_chunk →
  (∀ r c, r ≠ RANK → chunk l WORLD_SIZE !! r = Some c → peers r = gen <$> c) →
  all_gather (gen <$> worker_chunk) = (λ c : list Item, gen <$> c) <$> chunk l WORLD_SIZE.
Proof.
  intros Hown Hpeers. unfold Runner.all_gather, chunk.
  rewrite <- list_fmap_compose. apply list_fmap_ext.
  intros i r Hr. apply lookup_seq in Hr as [-> Hr]. cbn.
  case_decide as Hrank.
  - subst. rewrite chunk_lookup in Hown by done. congruence.
  - apply Hpeers; [done|]. by apply chunk_lookup.
Qed.

End runner_facts.

(** ** Exceptions *)

Lemma bind_Ok {A B} (f : A → result B) a : Ok a ≫= f = f a.
Proof. done. Qed.

Lemma bind_ok_inv {A B} (f : A → result B) m b :
  m ≫= f = Ok b → ∃ a, m = Ok a ∧ f a = Ok b.
Proof. destruct m as [a|e]; cbn; [by exists a|done]. Qed.

Lemma bind_raise_inv {A B} (f : A → result B) m e :
  m ≫= f = Raise e → m = Raise e ∨ ∃ a, m = Ok a ∧ f a = Raise e.
Proof. destruct m as [a|e']; cbn; [right; by exists a|left; congruence]. Qed.

(** [H : m ≫= f = Raise e]: either [m] raises, or the continuation does. *)
Ltac raise_cases H :=
  apply bind_raise_inv in H as [H|(? & _ & H)].

(** [H : m ≫= f = Ok b]: [m] returns [a], named by the pattern, and the
    continuation returns [b]. *)
Tactic Notation "ok_step" hyp(H) "as" simple_intropattern(a) :=
  apply bind_ok_inv in H as (a & _ & H).

(** ** Comprehensions that may raise *)

Section comprehension_facts.
Context {A B : Type}.
Implicit Types (f : A → result B) (l : list A).

Lemma comprehension_ok f (g : A → B) l :
  (∀ x, x ∈ l → f x = Ok (g x)) → comprehension f l = Ok (g <$> l).
Proof.
  induction l as [|x l IH]; intros Hf; [done|].
  cbn. rewrite (Hf x) by left. cbn.
  rewrite IH by (intros; apply Hf; by right). done.
Qed.

Lemma comprehension_inv f l ys :
  comprehension f l = Ok ys → Forall2 (λ x y, f x = Ok y) l ys.
Proof.
  revert ys. induction l as [|x l IH]; intros ys; cbn.
  - intros [= <-]. constructor.
  - destruct (f x) as [y|e] eqn:Hx; cbn; [|done].
    destruct (comprehension f l) as [ys'|e]; cbn; [|done].
    intros [= <-]. constructor; [done|by apply IH].
Qed.

Lemma comprehension_raise f l e :
  comprehension f l = Raise e → ∃ x, x ∈ l ∧ f x = Raise e.
Proof.
  induction l as [|x l IH]; cbn; [done|].
  destruct (f x) as [y|e'] eqn:Hx; cbn.
  - destruct (comprehension f l) as [ys'|e']; cbn; [done|].
    intros [= <-]. destruct IH as (x' & ? & ?); [done|].
    exists x'. split; [by right|done].
  - intros [= <-]. exists x. split; [by left|done].
Qed.

End comprehension_facts.

(** ** Winsorizing *)

Section winsorize_facts.
Import Metrics.

Lemma Qlt_bool_order : PySort.strict_weak_order Qlt_bool.
Proof.
  unfold Qlt_bool. split.
  - intros a b Hab. apply negb_true_iff in Hab. apply negb_false_iff.
    apply Qle_bool_iff. destruct (Qlt_le_dec b a) as [Hlt|Hle]; [|done].
    apply Qlt_le_weak in Hlt. apply Qle_bool_iff in Hlt. congruence.
  - intros a b c Hba Hcb. apply negb_false_iff in Hba, Hcb.
    apply negb_false_iff. apply Qle_bool_iff in Hba, Hcb. apply Qle_bool_iff.
    by apply Qle_trans with b.
Qed.

Lemma argsort_perm a : argsort a ≡ₚ seq 0 (length a).
Proof. apply sorted_perm. Qed.

Lemma argsort_length a : length (argsort a) = length a.
Proof. by rewrite argsort_perm, length_seq. Qed.

Lemma at_rank_ok a i :
  i < length a → ∃ v, at_rank a (argsort a) i = Ok v.
Proof.
  intros Hi. unfold at_rank.
  destruct (lookup_lt_is_Some_2 (argsort a) i) as [p Hp];
    [by rewrite argsort_length|].
  rewrite Hp. cbn.
  assert (p ∈ seq 0 (length a)) as Hin.
  { rewrite <- argsort_perm. by eapply list_elem_of_lookup_2. }
  apply elem_of_seq in Hin.
  destruct (lookup_lt_is_Some_2 a p) as [v Hv]; [lia|].
  rewrite Hv. by exists v.
Qed.

(** [int(0.05 * n)] and [int(n * 0.05)] are [n // 20]. *)
Lemma int_limit n :
  int (limit * inject_Z (Z.of_nat n)) = n `div` 20 ∧
  int (inject_Z (Z.of_nat n) * limit) = n `div` 20.
Proof.
  unfold int, limit, Qfloor, Qmult, inject_Z. cbn [Qnum Qden].
  assert (Z.to_nat (Z.of_nat n `div` 20) = n `div` 20) as Hdiv.
  { rewrite <- (Nat2Z.id (n `div` 20)). f_equal. by rewrite Nat2Z.inj_div. }
  split; rewrite <- Hdiv; f_equal.
  - change (Z.pos (100 * 1)) with (5 * 20)%Z.
    by rewrite Z.div_mul_cancel_l.
  - change (Z.pos (1 * 100)) with (20 * 5)%Z.
    by rewrite Z.div_mul_cancel_r.
Qed.

(** Fewer than twenty samples: nothing is replaced. *)
Lemma winsorize_small a :
  1 ≤ length a < 20 → winsorize a limit = Ok a.
Proof.
  intros Hlen. unfold winsorize.
  destruct (int_limit (length a)) as [-> ->].
  rewrite Nat.div_small by lia.
  change (Qeq_bool limit 0) with false.
  destruct (at_rank_ok a 0) as [v ->]; [lia|]. cbn.
  rewrite Nat.sub_0_r, take_0. cbn [assign foldl].
  destruct (at_rank_ok a (length a - 1)) as [v' ->]; [lia|]. cbn.
  rewrite drop_ge by (rewrite argsort_length; lia). done.
Qed.

Lemma assign_length a positions v : length (assign a positions v) = length a.
Proof.
  revert a. induction positions as [|q positions IH]; intros a; [done|].
  cbn. change (foldl _ ?b positions) with (assign b positions v).
  by rewrite IH, length_insert.
Qed.

(** After [a[positions] = v] the positions listed hold [v], the others
    what they held. *)
Lemma assign_lookup a positions v p :
  p < length a →
  assign a positions v !! p = if decide (p ∈ positions) then Some v else a !! p.
Proof.
  revert a. induction positions as [|q positions IH]; intros a Hp.
  - cbn. by rewrite decide_False by apply not_elem_of_nil.
  - cbn. change (foldl _ ?b positions) with (assign b positions v).
    rewrite IH by (by rewrite length_insert).
    destruct (decide (p ∈ positions)) as [Hin|Hout].
    + by rewrite decide_True by (by right).
    + destruct (decide (p = q)) as [->|Hne].
      * rewrite decide_True by left. by apply list_lookup_insert_eq.
      * rewrite decide_False by (by intros [?|?]%elem_of_cons).
        by apply list_lookup_insert_ne.
Qed.

Lemma at_rank_Ok a idx i v :
  idx !! i ≫= (a !!.) = Some v → at_rank a idx i = Ok v.
Proof. unfold at_rank. by intros ->. Qed.

(** What winsorizing does, rank by rank. *)
Lemma winsorize_ranks a :
  1 ≤ length a →
  ∃ w, winsorize a limit = Ok w ∧ length w = length a ∧
    ∀ r p, argsort a !! r = Some p →
      w !! p = argsort a !! clamp_rank (length a) r ≫= (a !!.).
Proof.
  intros Hn.
  pose proof (Nat.div_mod_eq (length a) 20) as Hdiv.
  pose proof (Nat.mod_upper_bound (length a) 20 ltac:(lia)) as Hmod.
  assert (NoDup (argsort a)) as Hnodup by (rewrite argsort_perm; apply NoDup_seq).
  assert (∀ r p, argsort a !! r = Some p → p < length a) as Hrange.
  { intros r p Hr.
    assert (p ∈ seq 0 (length a)) as Hin
      by (rewrite <- argsort_perm; by eapply list_elem_of_lookup_2).
    apply elem_of_seq in Hin. lia. }
  destruct (lookup_lt_is_Some_2 (argsort a) (length a `div` 20)) as [pl Hpl];
    [rewrite argsort_length; lia|].
  destruct (lookup_lt_is_Some_2 (argsort a) (length a - length a `div` 20 - 1))
    as [pu Hpu]; [rewrite argsort_length; lia|].
  destruct (lookup_lt_is_Some_2 a pl) as [v1 Hv1]; [by eapply Hrange|].
  destruct (lookup_lt_is_Some_2 a pu) as [v2 Hv2]; [by eapply Hrange|].
  assert (pu ∉ take (length a `div` 20) (argsort a)) as Hpu_out.
  { intros (i & Hi & Hlt)%elem_of_take.
    pose proof (NoDup_lookup _ _ _ _ Hnodup Hi Hpu). lia. }
  assert (assign a (take (length a `div` 20) (argsort a)) v1 !! pu = Some v2) as Hkept.
  { rewrite assign_lookup by (by eapply Hrange). by rewrite decide_False. }
  exists (assign (assign a (take (length a `div` 20) (argsort a)) v1)
            (drop (length a - length a `div` 20) (argsort a)) v2).
  split_and!.
  - unfold winsorize. destruct (int_limit (length a)) as [-> ->].
    change (Qeq_bool limit 0) with false.
    rewrite (at_rank_Ok a _ _ v1) by (by rewrite Hpl). rewrite !bind_Ok.
    rewrite (at_rank_Ok _ _ _ v2); [done|].
    rewrite Hpu. exact Hkept.
  - by rewrite !assign_length.
  - intros r p Hr. pose proof (Hrange r p Hr) as Hp.
    rewrite assign_lookup by (by rewrite assign_length).
    rewrite assign_lookup by done. unfold clamp_rank.
    destruct (decide (p ∈ drop _ _)) as [Hhigh|Hhigh].
    + apply list_elem_of_lookup in Hhigh as [i Hi]. rewrite lookup_drop in Hi.
      pose proof (NoDup_lookup _ _ _ _ Hnodup Hi Hr).
      pose proof (lookup_lt_Some _ _ _ Hr) as Hlt. rewrite argsort_length in Hlt.
      replace (_ `max` _) with (length a - length a `div` 20 - 1) by lia.
      by rewrite Hpu.
    + destruct (decide (p ∈ take _ _)) as [Hlow|Hlow].
      * apply elem_of_take in Hlow as (i & Hi & Hlt).
        pose proof (NoDup_lookup _ _ _ _ Hnodup Hi Hr).
        replace (_ `max` _) with (length a `div` 20) by lia.
        by rewrite Hpl.
      * pose proof (lookup_lt_Some _ _ _ Hr) as Hlt. rewrite argsort_length in Hlt.
        assert (length a `div` 20 ≤ r) as Hge.
        { destruct (decide (length a `div` 20 ≤ r)); [done|].
          destruct Hlow. apply elem_of_take. exists r. split; [done|lia]. }
        assert (r < length a - length a `div` 20) as Hle.
        { destruct (decide (r < length a - length a `div` 20)); [done|].
          destruct Hhigh. apply list_elem_of_lookup.
          exists (r - (length a - length a `div` 20)). rewrite lookup_drop.
          by replace (_ + _) with r by lia. }
        replace (_ `max` _) with r by lia.
        by rewrite Hr.
Qed.

(** The positions in the order of [argsort] hold ascending values. *)
Lemma argsort_ascending a :
  PySort.ascending Qlt_bool (λ i, default 0%Q (a !! i)) (argsort a).
Proof. apply sorted_ascending, Qlt_bool_order. Qed.

End winsorize_facts.

(** ** [compute] *)

Section metrics_facts.
Context {Reference TikzDocument Image : Type}.
Variable code : TikzDocument → string.
Variable is_rasterizable : TikzDocument → bool.
Variable rasterize : TikzDocument → option Image.
Variable measure_throughput : bool.
Variable library_metrics :
  list Reference → list string → list (option Image) → list (string * Q).

Local Abbreviation token_efficiency := (Metrics.token_efficiency code).
Local Abbreviation structural_statistic :=
  (Metrics.structural_statistic code measure_throughput).
Local Abbreviation compute :=
  (Metrics.compute code is_rasterizable rasterize measure_throughput library_metrics).

(** When no prediction is empty every [pred[-1]] is there. *)
Lemma finals_ok (predictions : list (list TikzDocument)) :
  (∀ pred, pred ∈ predictions → pred ≠ []) →
  ∃ finals,
    Forall2 (λ pred final, last pred = Some final) predictions finals ∧
    comprehension last_item predictions = Ok finals ∧
    ∀ (C : Type) (g : TikzDocument → C),
      comprehension (λ pred, final ← last_item pred; Ok (g final)) predictions =
        Ok (g <$> finals).
Proof.
  induction predictions as [|pred predictions IH]; intros Hne.
  - exists []. split_and!; [constructor|done|done].
  - destruct IH as (finals & Hall & Hfinals & Hg); [intros; apply Hne; by right|].
    destruct (last pred) as [final|] eqn:Hlast.
    + assert (last_item pred = Ok final) as Hitem
        by (unfold last_item; by rewrite Hlast).
      exists (final :: finals). split_and!.
      * by constructor.
      * cbn [comprehension]. by rewrite Hitem, Hfinals.
      * intros C g. cbn [comprehension]. by rewrite Hitem, Hg.
    + apply last_None in Hlast. destruct (Hne pred); [by left|done].
Qed.

Lemma token_efficiency_raises preds e :
  token_efficiency preds = Raise e → e = IndexError ∨ e = ZeroDivisionError.
Proof.
  unfold Metrics.token_efficiency, last_item.
  destruct (last preds); cbn; [|intros [= <-]; by left].
  unfold Metrics.true_div. case_decide; [|done]. intros [= <-]. by right.
Qed.

Lemma winsorize_raises a lim e :
  Metrics.winsorize a lim = Raise e → e = IndexError.
Proof.
  assert (∀ a idx i v, Metrics.at_rank a idx i = Raise v → v = IndexError) as Hrank.
  { intros a' idx i v. unfold Metrics.at_rank. case_match; [done|]. by intros [= <-]. }
  unfold Metrics.winsorize. intros Hw.
  raise_cases Hw.
  - destruct (Qeq_bool lim 0); [done|].
    raise_cases Hw; [by eapply Hrank|done].
  - raise_cases Hw; [by eapply Hrank|done].
Qed.

(** The statistics never fail an assertion. *)
Lemma structural_statistic_raises predictions e :
  structural_statistic predictions = Raise e → e ≠ AssertionError.
Proof.
  unfold Metrics.structural_statistic, Metrics.mean_sampling_throughput,
    Metrics.mean_token_efficiency.
  intros Hs. destruct measure_throughput.
  - raise_cases Hs; [|done]. raise_cases Hs; [|done].
    by rewrite (winsorize_raises _ _ _ Hs).
  - raise_cases Hs; [|done]. raise_cases Hs.
    + apply comprehension_raise in Hs as (preds & _ & Hp).
      by destruct (token_efficiency_raises _ _ Hp) as [-> | ->].
    + raise_cases Hs; [|done].
      by rewrite (winsorize_raises _ _ _ Hs).
Qed.

(** Inserting the library scores keeps an entry under another name. *)
Lemma scores_lookup (entries : list (string * Q)) (scores : gmap string Q) name :
  name ∉ entries.*1 →
  foldl (λ scores kv, <[kv.1 := kv.2]> scores) scores entries !! name = scores !! name.
Proof.
  revert scores. induction entries as [|[k v] entries IH]; intros scores Hname; [done|].
  cbn in *. apply not_elem_of_cons in Hname as [? ?].
  rewrite IH by done. by rewrite lookup_insert_ne.
Qed.

End metrics_facts.

(** * The claims *)

(** C1, as amended. For every sequence [S] and every [n >= 1]: when
    [len(S) mod n = 0], interleaving the list of the [n] chunks of
    [chunk(S, n)] (that is [list(chunk(S, n))], as [predict] builds it)
    gives back exactly [S], and when the chunks have equal lengths it gives
    the prefix [S[:n*(len(S)//n)]].  Handed the generator [chunk(S, n)]
    itself, [interleave] goes through it in the first round only: it
    returns [S] when [len(S) < n], and never returns when [n <= len(S)]. *)
Theorem chunk_interleave_roundtrip {A} (S : list A) (n : nat) :
  1 ≤ n →
  (length S `mod` n = 0 → interleave (chunk S n) = Some S) ∧
  (equal_lengths (chunk S n) →
     interleave (chunk S n) = Some (take (n * (length S `div` n)) S)) ∧
  (∀ fuel, interleave_over fuel 0 (Sequence (chunk S n)) [] =
           interleave_loop fuel 0 (chunk S n) []) ∧
  (length S < n →
     ∀ fuel, 1 ≤ fuel → interleave_over fuel 0 (Generator (chunk S n)) [] = Some S) ∧
  (n ≤ length S → diverges (λ fuel, interleave_over fuel 0 (Generator (chunk S n)) [])).
Proof.
  intros Hn. split; [|split; [|split; [|split]]].
  - intros _. by apply interleave_chunk.
  - intros Heq. apply equal_lengths_chunk in Heq; [|done].
    rewrite interleave_chunk by done. f_equal. symmetry. apply take_ge.
    pose proof (Nat.div_mod_eq (length S) n). lia.
  - intros fuel. apply interleave_over_sequence.
  - intros Hlen [|fuel] Hfuel; [lia|]. rewrite interleave_over_generator.
    rewrite extend_round_chunk by (done || cbn; lia). cbn [Nat.mul Nat.add drop app].
    rewrite bool_decide_eq_true_2 by lia. f_equal. apply take_ge. lia.
  - intros Hlen [|fuel]; [done|]. rewrite interleave_over_generator.
    rewrite extend_round_chunk by (done || cbn; lia). cbn [Nat.mul Nat.add].
    by rewrite bool_decide_eq_false_2 by lia.
Qed.

Lemma chunk_interleave_roundtrip_witness :
  1 ≤ 3 ∧ length [0; 1; 2; 3; 4; 5] `mod` 3 = 0 ∧
  interleave (chunk [0; 1; 2; 3; 4; 5] 3) = Some [0; 1; 2; 3; 4; 5].
Proof.
  split; [lia|]. split; [reflexivity|].
  apply (proj1 (chunk_interleave_roundtrip [0; 1; 2; 3; 4; 5] 3 ltac:(lia))).
  reflexivity.
Defined.

(** C1 as it is stated fails: with [len(S) = 6] and [n = 3] the chunks have
    equal lengths, and [interleave(chunk(S, n))] takes the three first
    items in round 0, finds the generator empty in every later round, so
    that no round raises [IndexError], and does not return. *)
Lemma interleave_generator_counterexample :
  length [0; 1; 2; 3; 4; 5] `mod` 3 = 0 ∧
  extend_round 0 (chunk [0; 1; 2; 3; 4; 5] 3) [] = ([0; 1; 2], false) ∧
  diverges (λ fuel, interleave_over fuel 0 (Generator (chunk [0; 1; 2; 3; 4; 5] 3)) []).
Proof.
  split; [reflexivity|]. split; [reflexivity|].
  intros [|fuel]; [done|]. by rewrite interleave_over_generator.
Qed.

(** C10. For every finite sequence [S] and every [n >= 1], also when
    [len(S) mod n <> 0], interleaving the list of chunks of [chunk(S, n)]
    returns exactly [S] (with enough rounds allowed, and so for the loop as
    it is): the chunks come longest first, and the last, partial round keeps
    the items it appended before the first access out of range. *)
Theorem interleave_chunk_uneven {A} (S : list A) (n : nat) :
  1 ≤ n →
  interleave (chunk S n) = Some S ∧
  (∀ fuel, length S `div` n < fuel → interleave_loop fuel 0 (chunk S n) [] = Some S) ∧
  (∀ i j ci cj, i ≤ j → chunk S n !! i = Some ci → chunk S n !! j = Some cj →
     length cj ≤ length ci) ∧
  extend_round (length S `div` n) (chunk S n) (take (length S `div` n * n) S) = (S, true).
Proof.
  intros Hn.
  pose proof (Nat.div_mod_eq (length S) n) as Hdiv.
  pose proof (Nat.mod_upper_bound (length S) n ltac:(lia)) as Hmod.
  split_and!.
  - by apply interleave_chunk.
  - intros fuel Hfuel.
    apply (interleave_loop_chunk S n fuel 0); [done|lia|nia].
  - intros i j ci cj Hij Hi Hj.
    assert (i < n ∧ j < n) as [Hin Hjn].
    { apply lookup_lt_Some in Hi, Hj. by rewrite chunk_length in Hi, Hj. }
    rewrite chunk_lookup in Hi, Hj by done. simplify_eq.
    rewrite !slice_step_length by done. by apply slice_length_antitone.
  - rewrite extend_round_chunk by (done || nia).
    rewrite bool_decide_eq_true_2 by nia. f_equal.
    rewrite (take_ge (drop _ S)) by (rewrite length_drop; nia).
    apply take_drop.
Qed.

Lemma interleave_chunk_uneven_witness :
  1 ≤ 3 ∧ interleave (chunk [0; 1; 2; 3; 4; 5; 6] 3) = Some [0; 1; 2; 3; 4; 5; 6].
Proof.
  split; [lia|].
  apply (proj1 (interleave_chunk_uneven [0; 1; 2; 3; 4; 5; 6] 3 ltac:(lia))).
Defined.

Section generation_claims.
Context {Score TikzDocument : Type}.
Context `{Countable Score, Countable TikzDocument}.
Variable score_lt : Score → Score → bool.
Variable is_rasterizable compiled_with_errors : TikzDocument → bool.
Variable set_iter : gset (Score * TikzDocument) → list (Score * TikzDocument).
Variable simulate : nat → option (Score * TikzDocument).
Variable strict : bool.
Variable timeout : option Z.
Variable start : Q.
Variable clock : nat → Q.

Local Abbreviation succeeds := (Generation.succeeds is_rasterizable compiled_with_errors strict).
Local Abbreviation timeout_over := (Generation.timeout_over timeout start clock).
Local Abbreviation generate_loop :=
  (Generation.generate_loop is_rasterizable compiled_with_errors simulate strict
     timeout start clock).
Local Abbreviation generate :=
  (Generation.generate score_lt is_rasterizable compiled_with_errors set_iter simulate
     strict timeout start clock).
Local Abbreviation succeeded_by :=
  (Generation.succeeded_by is_rasterizable compiled_with_errors simulate strict).
Local Abbreviation leaves_at :=
  (Generation.leaves_at is_rasterizable compiled_with_errors simulate strict timeout
     start clock).
Local Abbreviation observed := (Generation.observed simulate).
Local Abbreviation finalize := (Generation.finalize score_lt set_iter).

Lemma generate_loop_leaves fuel k :
  leaves_at k → k < fuel →
  ∃ st, generate_loop fuel 0 false ∅ = Some st ∧ Generation.consumed st ≤ S k.
Proof.
  intros Hleave Hfuel.
  apply (generate_loop_halts is_rasterizable compiled_with_errors simulate strict
           timeout start clock fuel 0 false ∅ k); [lia..|].
  destruct Hleave as [?|[Hs ?]]; [by left|right].
  split; [|done]. by apply flag_after_0.
Qed.

(** C2. The loop of [generate] stops consuming as soon as success has been
    achieved and (no timeout was given or the time elapsed since the start
    is at least the timeout): with enough fuel it returns, having taken no
    pair after that iteration.  It never stops before success unless the
    sequence is exhausted (when it stops otherwise, success has been
    achieved and the timeout is absent, zero or elapsed), and without a
    timeout it stops right at the first success. *)
Theorem generate_stops (fuel : nat) :
  (∀ k, k < fuel → succeeded_by (S k) →
     (timeout = None ∨ ∃ t, timeout = Some t ∧ (inject_Z t <= clock k - start)%Q) →
     ∃ st, generate_loop fuel 0 false ∅ = Some st ∧ Generation.consumed st ≤ S k) ∧
  (∀ st, generate_loop fuel 0 false ∅ = Some st →
     simulate (Generation.consumed st) = None ∨
     (succeeded_by (Generation.consumed st) ∧
      ∃ j, Generation.consumed st = S j ∧
        (timeout = None ∨ timeout = Some 0%Z ∨
         ∃ t, timeout = Some t ∧ (inject_Z t <= clock j - start)%Q))) ∧
  (∀ k score tikzpic, k < fuel → timeout = None →
     (∀ j, j < k → ∃ s t, simulate j = Some (s, t) ∧ succeeds t = false) →
     simulate k = Some (score, tikzpic) → succeeds tikzpic = true →
     ∃ st, generate_loop fuel 0 false ∅ = Some st ∧ Generation.consumed st = S k).
Proof.
  split_and!.
  - intros k Hk Hs Ht. apply generate_loop_leaves; [|done].
    right. split; [done|]. unfold Generation.timeout_over.
    destruct Ht as [Hnone|(t & Hsome & Ht)]; [by rewrite Hnone|].
    rewrite Hsome. apply orb_true_iff. right. by apply Qle_bool_iff.
  - intros st Hst.
    apply generate_loop_spec in Hst as (_ & _ & _ & Hflag & [?|(j & Hj & _ & Hs & Hover)]);
      [by left|right].
    split; [by apply flag_after_0, Hflag|].
    exists j. split; [done|]. unfold Generation.timeout_over in Hover.
    destruct timeout as [t|]; [|by left]. right.
    apply orb_true_iff in Hover as [Hzero|Hle].
    + left. f_equal. lia.
    + right. exists t. split; [done|]. by apply Qle_bool_iff.
  - intros k score tikzpic Hk Hnone Hbefore Hsim Hok.
    destruct (generate_loop_leaves fuel k) as (st & Hst & Hle); [|done|].
    { right. split; [|unfold Generation.timeout_over; by rewrite Hnone].
      exists k, score, tikzpic. split; [lia|done]. }
    exists st. split; [done|].
    destruct (decide (Generation.consumed st = S k)) as [|Hne]; [done|exfalso].
    apply generate_loop_spec in Hst as (_ & _ & _ & Hflag & Hexit).
    assert (Generation.consumed st ≤ k) as Hlt by lia.
    assert (Generation.success st = true) as Hsucc.
    { destruct Hexit as [Hend|(? & _ & _ & ? & _)]; [|done].
      destruct (decide (Generation.consumed st = k)) as [Heq|]; [congruence|].
      destruct (Hbefore (Generation.consumed st)) as (? & ? & ? & _); [lia|congruence]. }
    apply Hflag in Hsucc as [?|(j & s & t & ? & Hj & Ht)]; [done|].
    destruct (Hbefore j) as (s' & t' & Hj' & Ht'); [lia|]. congruence.
Qed.

(** C5. In [generate] an artifact triggers success exactly when it is
    rasterizable if [strict] is false, and exactly when it compiled without
    errors if [strict] is true: the loop leaves [success] set exactly when
    it has taken such an artifact from the generator. *)
Theorem generate_success_criterion (fuel : nat) (st : Generation.loop_state) :
  generate_loop fuel 0 false ∅ = Some st →
  (∀ tikzpic,
     succeeds tikzpic = true ↔
       (strict = false ∧ is_rasterizable tikzpic = true) ∨
       (strict = true ∧ compiled_with_errors tikzpic = false)) ∧
  (Generation.success st = true ↔
     ∃ j score tikzpic,
       j < Generation.consumed st ∧ simulate j = Some (score, tikzpic) ∧
       if strict then compiled_with_errors tikzpic = false
       else is_rasterizable tikzpic = true).
Proof.
  intros Hst. split.
  - intros tikzpic. unfold Generation.succeeds.
    destruct strict, (is_rasterizable tikzpic), (compiled_with_errors tikzpic);
      cbn; naive_solver.
  - apply generate_loop_spec in Hst as (_ & _ & _ & -> & _).
    rewrite flag_after_0. unfold Generation.succeeded_by, Generation.succeeds.
    split; intros (j & s & t & ? & ? & Ht); exists j, s, t; (split; [done|split; [done|]]);
      destruct strict; (done || by apply negb_true_iff).
Qed.

Lemma finalize_sorted (tikzpics : gset (Score * TikzDocument)) :
  PySort.strict_weak_order score_lt → (∀ s, set_iter s ≡ₚ elements s) →
  ∃ ps, finalize tikzpics = ps.*2 ∧ NoDup ps ∧ (∀ p, p ∈ ps ↔ p ∈ tikzpics) ∧
    PySort.ascending score_lt fst ps.
Proof.
  intros Horder Hiter. exists (PySort.sorted score_lt fst (set_iter tikzpics)).
  assert (PySort.sorted score_lt fst (set_iter tikzpics) ≡ₚ elements tikzpics) as Hperm
    by (by rewrite sorted_perm, Hiter).
  split_and!.
  - done.
  - rewrite Hperm. apply NoDup_elements.
  - intros p. by rewrite Hperm, elem_of_elements.
  - by apply sorted_ascending.
Qed.

(** C6. The value [generate] returns is the set of all the pairs observed
    during the loop, without duplicates, sorted ascending by score, with the
    scores dropped: when iteration [k] is the first in which the loop is
    left and the fuel exceeds [k], the loop takes the pairs up to that
    iteration and no other, and [generate] returns the artifacts of a list
    that holds exactly these pairs, each once, ascending by score. *)
Theorem generate_returns_sorted_candidates (k fuel : nat) :
  PySort.strict_weak_order score_lt → (∀ s, set_iter s ≡ₚ elements s) →
  leaves_at k → (∀ j, j < k → ¬ leaves_at j) → k < fuel →
  ∃ st ps,
    generate_loop fuel 0 false ∅ = Some st ∧
    Generation.consumed st = (if simulate k is Some _ then Datatypes.S k else k) ∧
    generate fuel = Some ps.*2 ∧
    NoDup ps ∧
    (∀ p, p ∈ ps ↔ ∃ j, j ≤ k ∧ simulate j = Some p) ∧
    PySort.ascending score_lt fst ps.
Proof.
  intros Horder Hiter Hleave Hfirst Hfuel.
  destruct (generate_loop_leaves fuel k) as (st & Hst & Hle); [done..|].
  destruct (finalize_sorted (Generation.tikzpics st)) as (ps & Hps & Hnodup & Hin & Hasc);
    [done..|].
  assert (Generation.consumed st = (if simulate k is Some _ then Datatypes.S k else k))
    as Hconsumed.
  { pose proof Hst as Hspec.
    apply generate_loop_spec in Hspec as (_ & Hsome & _ & Hflag & Hexit).
    assert (k ≤ Generation.consumed st ∨ ∃ j, Generation.consumed st = Datatypes.S j ∧ k ≤ j)
      as Hge.
    { destruct Hexit as [Hnone|(j & Hj & _ & Hsucc & Hover)].
      - left. destruct (decide (k ≤ Generation.consumed st)) as [|Hlt]; [done|].
        destruct (Hfirst (Generation.consumed st)); [lia|by left].
      - right. exists j. split; [done|].
        destruct (decide (k ≤ j)) as [|Hlt]; [done|].
        destruct (Hfirst j); [lia|]. right. split; [|done].
        apply flag_after_0. apply Hflag in Hsucc. by rewrite Hj in Hsucc. }
    destruct (simulate k) as [pair|] eqn:Hk.
    - destruct Hge as [Hge|(j & Hj & Hkj)]; [|lia].
      destruct (decide (Generation.consumed st = k)) as [Heq|]; [|lia].
      destruct Hexit as [Hnone|(j & Hj & _)]; [congruence|].
      destruct Hleave as [?|[Hs Hover]]; [congruence|].
      exfalso. rewrite Heq in Hj.
      destruct (Hfirst j); [lia|]. right.
      apply generate_loop_spec in Hst as (_ & _ & _ & Hflag' & [?|(j' & Hj' & _ & Hsucc & Ho)]);
        [congruence|].
      assert (j' = j) as -> by lia. split; [|done].
      apply flag_after_0. apply Hflag' in Hsucc. by rewrite Heq, Hj in Hsucc.
    - assert (Generation.consumed st ≤ k) as Hle'.
      { destruct (decide (Generation.consumed st ≤ k)) as [|Hgt]; [done|].
        destruct (Hsome k) as [? ?]; [lia|congruence]. }
      destruct Hge as [?|(j & ? & ?)]; lia. }
  exists st, ps.
  split; [done|]. split; [done|]. split; [|split; [done|split; [|done]]].
  - unfold Generation.generate. rewrite Hst. cbn. by rewrite Hps.
  - intros p. rewrite Hin.
    assert (p ∈ Generation.tikzpics st ↔ p ∈ observed (Generation.consumed st)) as Hobs
      by (by eapply generate_loop_tikzpics).
    rewrite Hobs, elem_of_observed, Hconsumed. split.
    + intros (j & Hj & Hp). exists j. split; [|done]. destruct (simulate k); lia.
    + intros (j & Hj & Hp). exists j. split; [|done].
      destruct (simulate k) eqn:Hk; [lia|].
      destruct (decide (j = k)) as [->|]; [congruence|lia].
Qed.

(** X26. What [generate] itself ensures about the artifact that is scored:
    for every batch it produces in which success occurred, the batch holds
    an artifact that meets the success criterion used (rasterizable when
    [strict] is false, compiled without errors when it is true), and its
    last artifact meets the criterion whenever some candidate that meets it
    was scored strictly above every candidate that fails it. *)
Theorem generate_last_succeeds_if_scored_highest (fuel : nat) (st : Generation.loop_state) :
  PySort.strict_weak_order score_lt → (∀ s, set_iter s ≡ₚ elements s) →
  generate_loop fuel 0 false ∅ = Some st → Generation.success st = true →
  (∃ tikzpic, tikzpic ∈ finalize (Generation.tikzpics st) ∧ succeeds tikzpic = true) ∧
  (∀ score tikzpic,
     (score, tikzpic) ∈ observed (Generation.consumed st) → succeeds tikzpic = true →
     (∀ s t, (s, t) ∈ observed (Generation.consumed st) → succeeds t = false →
        score_lt s score = true) →
     ∃ final, last (finalize (Generation.tikzpics st)) = Some final ∧
       succeeds final = true).
Proof.
  intros Horder Hiter Hst Hsucc.
  destruct (finalize_sorted (Generation.tikzpics st)) as (ps & Hps & Hnodup & Hin & Hasc);
    [done..|].
  assert (∀ p, p ∈ ps ↔ p ∈ observed (Generation.consumed st)) as Hobs.
  { intros p. rewrite Hin. by eapply generate_loop_tikzpics. }
  rewrite Hps. split.
  - apply generate_loop_spec in Hst as (_ & _ & _ & Hflag & _).
    apply Hflag, flag_after_0 in Hsucc as (j & s & t & Hj & Hsim & Ht).
    exists t. split; [|done]. apply list_elem_of_fmap. exists (s, t). split; [done|].
    apply Hobs, elem_of_observed. by exists j.
  - intros score tikzpic Hbest Hok Hlow.
    apply Hobs in Hbest.
    destruct (last ps) as [[s t]|] eqn:Hlast.
    + exists t. rewrite fmap_last, Hlast. split; [done|].
      destruct (succeeds t) eqn:Ht; [done|exfalso].
      assert ((s, t) ∈ ps) as Hst'.
      { apply list_elem_of_lookup. exists (pred (length ps)).
        by rewrite <- last_lookup. }
      pose proof (ascending_last score_lt fst Horder ps (s, t) (score, tikzpic)
                    Hasc Hlast Hbest) as Hmax.
      cbn in Hmax. rewrite (Hlow s t) in Hmax; [done| |done]. by apply Hobs.
    + apply last_None in Hlast. subst. by apply elem_of_nil in Hbest.
Qed.

End generation_claims.

Lemma Zltb_order : PySort.strict_weak_order Z.ltb.
Proof. split; intros; lia. Qed.

Lemma generate_stops_witness :
  ∃ st, Stub.generate_loop Stub.rising_pairs 10 = Some st ∧ Generation.consumed st ≤ 3.
Proof.
  apply (proj1 (generate_stops Stub.doc_rasterizable Stub.doc_errors
                  (Stub.engine Stub.rising_pairs) false None 0%Q Stub.frozen_clock 10) 2).
  - lia.
  - exists 2, 3%Z, (Stub.good "c"). split; [lia|]. split; reflexivity.
  - by left.
Defined.

Lemma generate_success_criterion_witness :
  Generation.success <$> Stub.generate_loop Stub.rising_pairs 10 = Some true ∧
  ∃ j score tikzpic,
    j < 3 ∧ Stub.engine Stub.rising_pairs j = Some (score, tikzpic) ∧
    Stub.doc_rasterizable tikzpic = true.
Proof.
  split; [reflexivity|].
  assert (Stub.generate_loop Stub.rising_pairs 10 =
            Some (Generation.LoopState 3 true (list_to_set (take 3 Stub.rising_pairs))))
    as Hst by (vm_compute; reflexivity).
  apply (proj1 (proj2 (generate_success_criterion _ _ _ _ _ _ _ _ _ Hst))).
  reflexivity.
Defined.

Lemma generate_returns_sorted_candidates_witness :
  ∃ st ps,
    Stub.generate_loop Stub.rising_pairs 10 = Some st ∧
    Generation.consumed st = 3 ∧
    Stub.generate Stub.rising_pairs 10 = Some ps.*2 ∧
    NoDup ps ∧
    (∀ p, p ∈ ps ↔ ∃ j, j ≤ 2 ∧ Stub.engine Stub.rising_pairs j = Some p) ∧
    PySort.ascending Z.ltb fst ps.
Proof.
  apply (generate_returns_sorted_candidates Z.ltb Stub.doc_rasterizable Stub.doc_errors
           elements (Stub.engine Stub.rising_pairs) false None 0%Q Stub.frozen_clock 2 10).
  - exact Zltb_order.
  - intros s. reflexivity.
  - right. split; [|reflexivity].
    exists 2, 3%Z, (Stub.good "c"). split; [lia|]. split; reflexivity.
  - intros j Hj [Hnone|[(i & s & t & Hi & Hsim & Hok) _]].
    + destruct j as [|[|j]]; [discriminate..|lia].
    + destruct i as [|[|i]]; [cbv in Hsim; simplify_eq; discriminate..|lia].
  - lia.
Defined.

Example generate_rising :
  Stub.generate Stub.rising_pairs 10 = Some [Stub.bad "a"; Stub.bad "b"; Stub.good "c"].
Proof. vm_compute. reflexivity. Qed.

(** With [timeout=0] and an engine whose third artifact is the first to
    rasterize, the loop stops at the third pair and the first three
    artifacts are returned in the order of their scores. *)
Example generate_timeout_zero :
  Generation.generate Z.ltb Stub.doc_rasterizable Stub.doc_errors elements
    (Stub.engine Stub.rising_pairs) false (Some 0%Z) 0%Q (λ k, inject_Z (Z.of_nat k)) 10
  = Some [Stub.bad "a"; Stub.bad "b"; Stub.good "c"].
Proof. vm_compute. reflexivity. Qed.


Lemma generate_last_succeeds_if_scored_highest_witness :
  ∃ final,
    last (Generation.finalize Z.ltb elements (list_to_set (take 3 Stub.rising_pairs)))
      = Some final ∧
    Generation.succeeds Stub.doc_rasterizable Stub.doc_errors false final = true.
Proof.
  assert (Stub.generate_loop Stub.rising_pairs 10 =
            Some (Generation.LoopState 3 true (list_to_set (take 3 Stub.rising_pairs))))
    as Hst by (vm_compute; reflexivity).
  apply (proj2 (generate_last_succeeds_if_scored_highest Z.ltb _ _ elements _ _ _ _ _
                  10 _ Zltb_order (λ s, reflexivity _) Hst eq_refl)
           3%Z (Stub.good "c")).
  - apply elem_of_observed. exists 2. split; [cbn; lia|reflexivity].
  - reflexivity.
  - intros s t Hin Hfail. apply elem_of_observed in Hin as (j & Hj & Hsim).
    cbn in Hj.
    destruct j as [|[|[|j]]]; [..|lia]; cbv in Hsim; simplify_eq; done.
Defined.

Section runner_claims.
Context {Item TikzDocument : Type}.
Variable TikzDocument_new : string → TikzDocument.
Variable code : TikzDocument → string.
Variables WORLD_SIZE RANK : nat.
Variable load : result unit.
Variable run_generate : Item → result (list TikzDocument).
Variable peers : nat → list (list TikzDocument).
Variable files : string → option (list (list string)).

Local Abbreviation all_gather := (Runner.all_gather WORLD_SIZE RANK peers).
Local Abbreviation resume := (Runner.resume TikzDocument_new files).
Local Abbreviation persist := (Runner.persist (Item := Item) code RANK).
Local Abbreviation predict :=
  (Runner.predict TikzDocument_new code WORLD_SIZE RANK load run_generate peers files).

Lemma slice_step_subseteq (l : list Item) i n x :
  1 ≤ n → x ∈ slice_step l i n → x ∈ l.
Proof.
  intros Hn Hx. apply list_elem_of_lookup in Hx as [k Hk].
  rewrite slice_step_lookup in Hk by done. by eapply list_elem_of_lookup_2.
Qed.

Lemma resume_cached cache_file path samples :
  Runner.configured cache_file = Some path → files path = Some samples →
  resume cache_file = (λ sample : list string, TikzDocument_new <$> sample) <$> samples.
Proof. intros Hpath Hfile. unfold Runner.resume. rewrite Hpath. cbn. by rewrite Hfile. Qed.

(** C3. If the generation phase of [predict] raises an exception for an
    item, the all-gather of the per-worker result lists, the interleaved
    reassembly and (on rank 0, when a cache path is configured) the write
    of the cache file still take place, and the exception then leaves
    [predict]. *)
Theorem predict_raise_still_gathers (testset : list Item) (cache_file : option string)
    (gen : Item → list TikzDocument) (finished rest : list Item) (item : Item)
    (e : exception) :
  load = Ok () → 1 ≤ WORLD_SIZE →
  chunk (drop (length (resume cache_file)) testset) WORLD_SIZE !! RANK
    = Some (finished ++ item :: rest) →
  (∀ i, i ∈ finished → run_generate i = Ok (gen i)) →
  run_generate item = Raise e →
  ∃ interleaved,
    interleave (all_gather (gen <$> finished)) = Some interleaved ∧
    predict testset cache_file =
      Some ((Runner.Generate <$> finished ++ [item]) ++
            [Runner.AllGather (gen <$> finished) (all_gather (gen <$> finished));
             Runner.Extend interleaved] ++
            persist cache_file (resume cache_file ++ interleaved),
            Raise e) ∧
    (∀ path, Runner.configured cache_file = Some path → RANK = 0 →
       persist cache_file (resume cache_file ++ interleaved) =
         [Runner.Dump path
            ((λ ps : list TikzDocument, code <$> ps) <$> (resume cache_file ++ interleaved))]).
Proof.
  intros Hload HW Hchunk Hok Hraise.
  destruct (interleave_terminates (all_gather (gen <$> finished))) as [interleaved Hint].
  { by apply all_gather_nonempty. }
  exists interleaved. split_and!; [done| |].
  - unfold Runner.predict, Runner.try_body. rewrite Hload, Hchunk.
    rewrite (generate_all_raise run_generate gen finished rest item e) by done.
    cbn [Runner.trace Runner.worker_preds Runner.raised app].
    rewrite Hint. done.
  - intros path Hpath Hrank. unfold Runner.persist. rewrite Hpath.
    by rewrite decide_True.
Qed.

(** C7. When [predict] resumes from a cache file of [k] entries, the cached
    entries keep their positions and order at the front of the result
    whatever else happens; and when every call of [generate] returns and
    every rank contributes the batches of its own chunk, exactly the first
    [k] dataset items are skipped and the batches of the remaining items
    follow the [k] cached entries, in dataset order. *)
Theorem predict_resume_appends (testset : list Item) (cache_file : option string)
    (path : string) (samples : list (list string)) (gen : Item → list TikzDocument) :
  load = Ok () →
  Runner.configured cache_file = Some path → files path = Some samples →
  let k := length samples in
  let cached := (λ sample : list string, TikzDocument_new <$> sample) <$> samples in
  (∀ trace predictions,
     predict testset cache_file = Some (trace, Ok predictions) →
     take k predictions = cached ∧ ∃ new, predictions = cached ++ new) ∧
  (1 ≤ WORLD_SIZE → RANK < WORLD_SIZE →
   (∀ item, item ∈ drop k testset → run_generate item = Ok (gen item)) →
   (∀ r c, r ≠ RANK → chunk (drop k testset) WORLD_SIZE !! r = Some c →
      peers r = gen <$> c) →
   ∃ worker_chunk,
     chunk (drop k testset) WORLD_SIZE !! RANK = Some worker_chunk ∧
     predict testset cache_file =
       Some ((Runner.Generate <$> worker_chunk) ++
             [Runner.AllGather (gen <$> worker_chunk) (all_gather (gen <$> worker_chunk));
              Runner.Extend (gen <$> drop k testset)] ++
             persist cache_file (cached ++ (gen <$> drop k testset)),
             Ok (cached ++ (gen <$> drop k testset)))).
Proof.
  intros Hload Hpath Hfile k cached.
  pose proof (resume_cached cache_file path samples Hpath Hfile) as Hresume.
  fold cached in Hresume.
  assert (length cached = k) as Hlen by (unfold cached; by rewrite length_fmap).
  split.
  - intros trace predictions. unfold Runner.predict. rewrite Hload, Hresume.
    destruct (interleave _) as [interleaved|]; cbn; [|done].
    destruct (Runner.raised _); [done|]. intros [= _ <-].
    split; [|by eexists]. by rewrite take_app_length'.
  - intros HW Hrank Hok Hpeers.
    exists (slice_step (drop k testset) RANK WORLD_SIZE).
    assert (chunk (drop k testset) WORLD_SIZE !! RANK =
              Some (slice_step (drop k testset) RANK WORLD_SIZE)) as Hchunk
      by (by apply chunk_lookup).
    split; [done|].
    unfold Runner.predict, Runner.try_body. rewrite Hload, Hresume, Hlen, Hchunk.
    rewrite (generate_all_ok run_generate gen); [|intros item Hitem|done].
    2: { apply Hok. by eapply slice_step_subseteq. }
    cbn [Runner.trace Runner.worker_preds Runner.raised app].
    rewrite (all_gather_chunks WORLD_SIZE RANK peers gen (drop k testset)) by done.
    rewrite interleave_fmap, interleave_chunk by done. done.
Qed.

End runner_claims.

Lemma stub_run_generate (item : string) :
  Stub.run_generate item = Ok (Stub.batch_of item).
Proof.
  unfold Stub.run_generate, Stub.generate, Generation.generate. cbn.
  unfold Generation.finalize. rewrite (left_id_L ∅ (∪)), elements_singleton. done.
Qed.

Lemma predict_raise_still_gathers_witness :
  ∃ interleaved,
    interleave (Runner.all_gather 2 0 (Stub.peer_batches ["a"; "b"; "c"; "d"] 2)
                  (Stub.batch_of <$> ["a"])) = Some interleaved ∧
    Stub.predict Stub.failing_run_generate Stub.no_files ["a"; "b"; "c"; "d"] =
      Some ([Runner.Generate "a"; Runner.Generate "c";
             Runner.AllGather [[Stub.good "a"]]
               [[[Stub.good "a"]]; [[Stub.good "b"]; [Stub.good "d"]]];
             Runner.Extend interleaved;
             Runner.Dump "cache.json"
               ((λ ps : list Stub.document, Stub.doc_code <$> ps) <$> interleaved)],
            Raise (OtherError "engine failure")).
Proof.
  destruct (predict_raise_still_gathers Stub.good Stub.doc_code 2 0 (Ok ())
              Stub.failing_run_generate (Stub.peer_batches ["a"; "b"; "c"; "d"] 2)
              Stub.no_files ["a"; "b"; "c"; "d"] (Some "cache.json") Stub.batch_of
              ["a"] [] "c" (OtherError "engine failure"))
    as (interleaved & Hint & Hpredict & Hdump).
  - reflexivity.
  - lia.
  - reflexivity.
  - intros i Hi. apply list_elem_of_singleton in Hi as ->.
    unfold Stub.failing_run_generate. rewrite decide_False by done.
    apply stub_run_generate.
  - reflexivity.
  - exists interleaved. split; [exact Hint|].
    rewrite (Hdump "cache.json" eq_refl eq_refl) in Hpredict. exact Hpredict.
Defined.

Example predict_raise_loses_peer_item :
  Stub.predict Stub.failing_run_generate Stub.no_files ["a"; "b"; "c"; "d"] =
    Some ([Runner.Generate "a"; Runner.Generate "c";
           Runner.AllGather [[Stub.good "a"]]
             [[[Stub.good "a"]]; [[Stub.good "b"]; [Stub.good "d"]]];
           Runner.Extend [[Stub.good "a"]; [Stub.good "b"]];
           Runner.Dump "cache.json" [["a"]; ["b"]]],
          Raise (OtherError "engine failure")).
Proof. vm_compute. reflexivity. Qed.

Lemma predict_resume_appends_witness :
  ∃ worker_chunk,
    chunk (drop 1 ["a"; "b"; "c"; "d"; "e"]) 2 !! 0 = Some worker_chunk ∧
    Stub.predict Stub.run_generate Stub.one_cached ["a"; "b"; "c"; "d"; "e"] =
      Some ((Runner.Generate <$> worker_chunk) ++
            [Runner.AllGather (Stub.batch_of <$> worker_chunk)
               (Runner.all_gather 2 0 (Stub.peer_batches ["b"; "c"; "d"; "e"] 2)
                  (Stub.batch_of <$> worker_chunk));
             Runner.Extend (Stub.batch_of <$> ["b"; "c"; "d"; "e"])] ++
            Runner.persist Stub.doc_code 0 (Some "cache.json")
              ([[Stub.good "a"]] ++ (Stub.batch_of <$> ["b"; "c"; "d"; "e"])),
            Ok ([[Stub.good "a"]] ++ (Stub.batch_of <$> ["b"; "c"; "d"; "e"]))).
Proof.
  apply (proj2 (predict_resume_appends Stub.good Stub.doc_code 2 0 (Ok ())
                  Stub.run_generate (Stub.peer_batches ["b"; "c"; "d"; "e"] 2)
                  Stub.one_cached ["a"; "b"; "c"; "d"; "e"] (Some "cache.json")
                  "cache.json" [["a"]] Stub.batch_of eq_refl eq_refl eq_refl)).
  - lia.
  - lia.
  - intros item _. apply stub_run_generate.
  - intros r c _ Hc.
    assert (r < 2) as Hr.
    { apply lookup_lt_Some in Hc. by rewrite chunk_length in Hc. }
    rewrite chunk_lookup in Hc by done. by simplify_eq.
Defined.

(** Four items, two workers, an engine that succeeds at once: the result
    holds four batches of one candidate, in dataset order. *)
Example predict_four_items :
  snd <$> Stub.predict Stub.run_generate Stub.no_files ["a"; "b"; "c"; "d"] =
    Some (Ok [[Stub.good "a"]; [Stub.good "b"]; [Stub.good "c"]; [Stub.good "d"]]).
Proof. vm_compute. reflexivity. Qed.

Section metrics_claims.
Context {Reference TikzDocument Image : Type}.
Variable code : TikzDocument → string.
Variable is_rasterizable : TikzDocument → bool.
Variable rasterize : TikzDocument → option Image.
Variable library_metrics :
  list Reference → list string → list (option Image) → list (string * Q).

Lemma Forall2_elem_of_l {A B} (P : A → B → Prop) l k x :
  Forall2 P l k → x ∈ l → ∃ y, y ∈ k ∧ P x y.
Proof.
  intros Hall Hx. apply list_elem_of_lookup in Hx as [i Hi].
  destruct (Forall2_lookup_l P l k i x Hall Hi) as (y & Hy & HP).
  exists y. split; [by eapply list_elem_of_lookup_2|done].
Qed.

Lemma Forall2_elem_of_r {A B} (P : A → B → Prop) l k y :
  Forall2 P l k → y ∈ k → ∃ x, x ∈ l ∧ P x y.
Proof.
  intros Hall Hy. apply list_elem_of_lookup in Hy as [i Hi].
  destruct (Forall2_lookup_r P l k i y Hall Hi) as (x & Hx & HP).
  exists x. split; [by eapply list_elem_of_lookup_2|done].
Qed.

(** C8, as amended. When no prediction is empty and the final artifact of
    some prediction is not rasterizable, [compute] fails with an assertion
    failure, whatever [measure_throughput]; and when every prediction has a
    final artifact that is rasterizable the assertion does not fire and
    scoring proceeds with the structural statistic and the library
    metrics. *)
Theorem compute_assertion (measure_throughput : bool) (references : list Reference)
    (predictions : list (list TikzDocument)) :
  ((∀ pred, pred ∈ predictions → pred ≠ []) →
   (∃ pred final, pred ∈ predictions ∧ last pred = Some final ∧
      is_rasterizable final = false) →
   Metrics.compute code is_rasterizable rasterize measure_throughput library_metrics
     references predictions = Raise AssertionError) ∧
  ((∀ pred, pred ∈ predictions →
      ∃ final, last pred = Some final ∧ is_rasterizable final = true) →
   Metrics.compute code is_rasterizable rasterize measure_throughput library_metrics
     references predictions ≠ Raise AssertionError ∧
   ∃ finals,
     Forall2 (λ pred final, last pred = Some final) predictions finals ∧
     Metrics.compute code is_rasterizable rasterize measure_throughput library_metrics
       references predictions =
       stat ← Metrics.structural_statistic code measure_throughput predictions;
       Ok (foldl (λ scores kv, <[kv.1 := kv.2]> scores) {[ stat.1 := stat.2 ]}
             (library_metrics references (code <$> finals) (rasterize <$> finals)))).
Proof.
  split.
  - intros Hne (pred & final & Hpred & Hlast & Hbad).
    destruct (finals_ok predictions Hne) as (finals & Hall & Hfinals & Hg).
    unfold Metrics.compute. rewrite !Hg, Hfinals, !bind_Ok.
    destruct (forallb is_rasterizable finals) eqn:Hforall; [|done].
    destruct (Forall2_elem_of_l _ _ _ _ Hall Hpred) as (final' & Hin & Hlast').
    assert (final' = final) as -> by congruence.
    assert (is_rasterizable final = true) as Hgood; [|congruence].
    apply (proj1 (forallb_forall _ _) Hforall). by apply list_elem_of_In.
  - intros Hok.
    destruct (finals_ok predictions) as (finals & Hall & Hfinals & Hg).
    { intros pred Hpred ->. by destruct (Hok [] Hpred) as (? & ? & _). }
    assert (Metrics.compute code is_rasterizable rasterize measure_throughput
              library_metrics references predictions =
            stat ← Metrics.structural_statistic code measure_throughput predictions;
            Ok (foldl (λ scores kv, <[kv.1 := kv.2]> scores) {[ stat.1 := stat.2 ]}
                  (library_metrics references (code <$> finals) (rasterize <$> finals))))
      as Hcompute.
    { unfold Metrics.compute. rewrite !Hg, Hfinals, !bind_Ok.
      destruct (forallb is_rasterizable finals) eqn:Hforall; [done|exfalso].
      apply not_true_iff_false in Hforall. apply Hforall.
      apply forallb_forall. intros final Hfinal. apply list_elem_of_In in Hfinal.
      destruct (Forall2_elem_of_r _ _ _ _ Hall Hfinal) as (pred & Hpred & Hlast).
      destruct (Hok pred Hpred) as (final' & Hlast' & Hr). congruence. }
    split; [|by exists finals].
    rewrite Hcompute. intros Hraise.
    apply bind_raise_inv in Hraise as [Hraise|(stat & _ & ?)]; [|done].
    by apply structural_statistic_raises in Hraise.
Qed.

(** C9, as amended. When [measure_throughput] is false, the structural
    statistic reported by [compute] is the mean of the per-item ratios
    (length of the code of the final artifact over the summed lengths of the
    code of all the candidates of the item) after winsorizing with limits of
    5% on both sides, which gives the [n // 20] smallest ratios the value of
    the next smallest and the [n // 20] largest the value of the next
    largest: with fewer than twenty items no value is replaced and the
    statistic is the plain mean of the ratios. *)
Theorem compute_mean_token_efficiency (references : list Reference)
    (predictions : list (list TikzDocument)) (scores : gmap string Q) :
  Metrics.compute code is_rasterizable rasterize false library_metrics
    references predictions = Ok scores →
  ∃ ratios w,
    Forall2 (λ preds ratio, ∃ final,
               last preds = Some final ∧
               ratio = (inject_Z (Metrics.len (code final)) /
                        inject_Z (foldr Z.add 0%Z ((λ pred, Metrics.len (code pred)) <$> preds)))%Q)
      predictions ratios ∧
    Metrics.winsorize ratios (5 # 100) = Ok w ∧
    (∃ pred_code pred_image,
       scores = foldl (λ scores kv, <[kv.1 := kv.2]> scores)
                  {[ "MeanTokenEfficiency"%string := Metrics.mean w ]}
                  (library_metrics references pred_code pred_image) ∧
       ("MeanTokenEfficiency" ∉ (library_metrics references pred_code pred_image).*1 →
        scores !! "MeanTokenEfficiency" = Some (Metrics.mean w))) ∧
    (∃ idx,
       idx ≡ₚ seq 0 (length ratios) ∧
       PySort.ascending Metrics.Qlt_bool (λ i, default 0%Q (ratios !! i)) idx ∧
       ∀ r p, idx !! r = Some p →
         w !! p = idx !! Metrics.clamp_rank (length ratios) r ≫= (ratios !!.)) ∧
    (length predictions < 20 → w = ratios).
Proof.
  intros Hcompute. unfold Metrics.compute in Hcompute.
  ok_step Hcompute as pred_code. ok_step Hcompute as pred_image.
  ok_step Hcompute as finals.
  destruct (forallb is_rasterizable finals); [|done].
  apply bind_ok_inv in Hcompute as ([name v] & Hstat & Hscores).
  unfold Metrics.structural_statistic in Hstat.
  apply bind_ok_inv in Hstat as (v' & Hmean & [= <- <-]).
  unfold Metrics.mean_token_efficiency in Hmean.
  apply bind_ok_inv in Hmean as (ratios & Hratios & Hmean).
  apply bind_ok_inv in Hmean as (w & Hw & [= <-]).
  apply comprehension_inv in Hratios.
  exists ratios, w. split_and!.
  - eapply Forall2_impl; [exact Hratios|]. cbn. intros preds ratio.
    unfold Metrics.token_efficiency, last_item, Metrics.true_div.
    destruct (last preds) as [final|]; cbn; [|done].
    case_decide; [done|]. intros [= <-]. by exists final.
  - exact Hw.
  - injection Hscores as <-. cbn [fst snd].
    exists pred_code, pred_image. split; [done|]. intros Hnames.
    rewrite scores_lookup by done. by rewrite lookup_singleton_eq.
  - destruct ratios as [|ratio ratios]; [done|].
    destruct (winsorize_ranks (ratio :: ratios)) as (w' & Hw' & _ & Hranks);
      [cbn; lia|].
    assert (w' = w) as -> by congruence.
    exists (Metrics.argsort (ratio :: ratios)).
    split_and!; [apply argsort_perm|apply argsort_ascending|exact Hranks].
  - intros Hlen. apply Forall2_length in Hratios. rewrite Hratios in Hlen.
    destruct ratios as [|ratio ratios]; [done|].
    rewrite winsorize_small in Hw by (cbn in *; lia). congruence.
Qed.

End metrics_claims.

(** C8 as it is stated fails: with an empty prediction next to one whose
    final artifact is not rasterizable, [pred[-1]] raises [IndexError]
    before the assertion is reached. *)
Lemma compute_empty_prediction_counterexample :
  (∃ pred final,
     pred ∈ [[]; [Stub.bad "x"]] ∧ last pred = Some final ∧
     Stub.doc_rasterizable final = false) ∧
  Stub.compute [[]; [Stub.bad "x"]] = Raise IndexError ∧
  Stub.compute [[]; [Stub.bad "x"]] ≠ Raise AssertionError.
Proof.
  split_and!; [|done..].
  exists [Stub.bad "x"], (Stub.bad "x"). split_and!; [|done..].
  apply list_elem_of_lookup. by exists 1.
Qed.

Lemma compute_assertion_witness :
  Stub.compute [[Stub.good "a"]; [Stub.good "a"; Stub.bad "x"]] = Raise AssertionError.
Proof.
  apply (proj1 (compute_assertion Stub.doc_code Stub.doc_rasterizable Stub.rasterize
                  Stub.library_metrics false []
                  [[Stub.good "a"]; [Stub.good "a"; Stub.bad "x"]])).
  - intros pred Hpred.
    apply elem_of_cons in Hpred as [->|Hpred]; [done|].
    apply list_elem_of_singleton in Hpred as ->. done.
  - exists [Stub.good "a"; Stub.bad "x"], (Stub.bad "x"). split; [|done].
    apply list_elem_of_lookup. by exists 1.
Defined.

(** C9 as it is stated fails: on three items with the ratios 0.1, 0.2 and
    0.9 nothing is replaced ([int(0.05 * 3)] is 0), and the statistic is the
    plain mean 0.4, not the mean of 0.1, 0.2 and 0.2. *)
Lemma token_efficiency_three_items_counterexample :
  comprehension (Metrics.token_efficiency Stub.doc_code) Stub.three_items
    = Ok Stub.three_ratios ∧
  Metrics.winsorize Stub.three_ratios (5 # 100) = Ok Stub.three_ratios ∧
  ∃ v, Metrics.mean_token_efficiency Stub.doc_code Stub.three_items = Ok v ∧
    (v == 2 # 5)%Q ∧ ¬ (v == Metrics.mean [1 # 10; 1 # 5; 1 # 5])%Q.
Proof.
  split; [reflexivity|]. split; [reflexivity|].
  eexists. split; [reflexivity|]. split; [reflexivity|].
  intros Heq. vm_compute in Heq. discriminate.
Qed.

Lemma compute_mean_token_efficiency_witness :
  ∃ ratios w,
    Forall2 (λ preds ratio, ∃ final,
               last preds = Some final ∧
               ratio = (inject_Z (Metrics.len (Stub.doc_code final)) /
                        inject_Z (foldr Z.add 0%Z
                                    ((λ pred, Metrics.len (Stub.doc_code pred)) <$> preds)))%Q)
      Stub.three_items ratios ∧
    Metrics.winsorize ratios (5 # 100) = Ok w ∧
    (∃ pred_code pred_image,
       (<["TexEditDistance" := 0%Q]>
          {["MeanTokenEfficiency" := Metrics.mean Stub.three_ratios]} : gmap string Q)
       = foldl (λ scores kv, <[kv.1 := kv.2]> scores)
           {[ "MeanTokenEfficiency"%string := Metrics.mean w ]}
           (Stub.library_metrics [] pred_code pred_image) ∧
       ("MeanTokenEfficiency" ∉ (Stub.library_metrics [] pred_code pred_image).*1 →
        (<["TexEditDistance" := 0%Q]>
           {["MeanTokenEfficiency" := Metrics.mean Stub.three_ratios]} : gmap string Q)
          !! "MeanTokenEfficiency" = Some (Metrics.mean w))) ∧
    (∃ idx,
       idx ≡ₚ seq 0 (length ratios) ∧
       PySort.ascending Metrics.Qlt_bool (λ i, default 0%Q (ratios !! i)) idx ∧
       ∀ r p, idx !! r = Some p →
         w !! p = idx !! Metrics.clamp_rank (length ratios) r ≫= (ratios !!.)) ∧
    (length Stub.three_items < 20 → w = ratios).
Proof.
  apply (compute_mean_token_efficiency Stub.doc_code Stub.doc_rasterizable Stub.rasterize
           Stub.library_metrics [] Stub.three_items).
  vm_compute. reflexivity.
Defined.

(** With twenty samples one value is replaced on each side. *)
Example winsorize_twenty :
  Metrics.winsorize Stub.twenty_samples (5 # 100) =
    Ok ((λ k, inject_Z (Z.of_nat k)) <$>
          [5; 3; 19; 7; 8; 9; 10; 11; 12; 13; 14; 15; 16; 17; 18; 19; 2; 2; 4; 6]).
Proof. vm_compute. reflexivity. Qed.

(** * More of the code *)

(** ** Where [chunk] puts the items and where [interleave] stops *)

Section striping_more.
Context {A : Type}.
Implicit Types (l acc : list A) (chunks : list (list A)).

Lemma chunk_cell l n a b :
  1 ≤ n → b < n → Grid.cell (chunk l n) a b = l !! (b + a * n).
Proof.
  intros Hn Hb. unfold Grid.cell. rewrite chunk_lookup by done. cbn.
  by apply slice_step_lookup.
Qed.

(** X1. [chunk(l, n)] deals the items out like cards: for [n >= 1] the item
    at position [p] of [l] is item [p // n] of chunk [p % n], item [k] of
    chunk [i] is the item at position [i + k*n], and no two places of the
    chunks hold the same position. *)
Theorem chunk_position l (n : nat) :
  1 ≤ n →
  (∀ p, Grid.cell (chunk l n) (p `div` n) (p `mod` n) = l !! p) ∧
  (∀ i k, i < n → Grid.cell (chunk l n) k i = l !! (i + k * n)) ∧
  (∀ i k i' k', i < n → i' < n → i + k * n = i' + k' * n → i = i' ∧ k = k').
Proof.
  intros Hn. split_and!.
  - intros p. rewrite chunk_cell by (done || by apply Nat.mod_upper_bound; lia).
    f_equal. pose proof (Nat.div_mod_eq p n). lia.
  - intros i k Hi. by apply chunk_cell.
  - intros i k i' k' Hi Hi' Heq.
    assert (k = k') as -> by nia. split; [lia|done].
Qed.

(** X2. The chunks are balanced: for [n >= 1] chunk [i] of [chunk(l, n)]
    holds [len(l) // n] items, and one more when [i < len(l) % n]. *)
Theorem chunk_balanced l (n i : nat) (c : list A) :
  1 ≤ n → chunk l n !! i = Some c →
  length c = length l `div` n + (if decide (i < length l `mod` n) then 1 else 0).
Proof.
  intros Hn Hc.
  assert (i < n) as Hi by (apply lookup_lt_Some in Hc; by rewrite chunk_length in Hc).
  rewrite chunk_lookup in Hc by done. simplify_eq.
  rewrite slice_step_length by done.
  pose proof (Nat.div_mod_eq (length l) n) as Hdiv.
  pose proof (Nat.mod_upper_bound (length l) n ltac:(lia)) as Hmod.
  set (q := length l `div` n) in *. set (r := length l `mod` n) in *.
  set (m := slice_length (length l) i n).
  assert (∀ k, k < m ↔ i + k * n < length l) as Hm
    by (intros k; by apply slice_length_lt).
  case_decide.
  - assert (q < m) by (apply Hm; nia).
    assert (¬ q + 1 < m) by (rewrite Hm; nia). lia.
  - assert (¬ q < m) by (rewrite Hm; nia).
    destruct q as [|q']; [lia|].
    assert (q' < m) by (apply Hm; nia). lia.
Qed.

End striping_more.

Lemma chunk_position_witness :
  Grid.cell (chunk [10; 11; 12; 13; 14; 15; 16] 3) (5 `div` 3) (5 `mod` 3) = Some 15.
Proof.
  rewrite (proj1 (chunk_position [10; 11; 12; 13; 14; 15; 16] 3 ltac:(lia)) 5).
  reflexivity.
Defined.

Lemma chunk_balanced_witness :
  length [11; 14] = 7 `div` 3 + (if decide (1 < 7 `mod` 3) then 1 else 0).
Proof.
  apply (chunk_balanced [10; 11; 12; 13; 14; 15; 16] 3 1 [11; 14]); [lia|reflexivity].
Defined.

Section interleave_more.
Context {A : Type}.
Implicit Types (l acc : list A) (chunks : list (list A)).

Lemma extend_round_all idx chunks acc :
  (∀ c, c ∈ chunks → is_Some (c !! idx)) →
  extend_round idx chunks acc = (acc ++ omap (.!! idx) chunks, false).
Proof.
  revert acc. induction chunks as [|c chunks IH]; intros acc Hall.
  - cbn. by rewrite app_nil_r.
  - destruct (Hall c) as [x Hx]; [by left|]. cbn. rewrite Hx.
    rewrite IH by (intros; apply Hall; by right).
    by rewrite <- (assoc_L (++)).
Qed.

Lemma step_at chunks idx b :
  b < length chunks → Grid.step chunks (idx * length chunks + b) = Grid.cell chunks idx b.
Proof.
  intros Hb. unfold Grid.step. f_equal.
  - symmetry. apply (Nat.div_unique _ _ idx b); lia.
  - symmetry. apply (Nat.mod_unique _ _ idx b); lia.
Qed.

(** The first [j] items of round [idx] are the steps
    [idx * len(chunks) .. idx * len(chunks) + j - 1]. *)
Lemma row_steps chunks idx j :
  j ≤ length chunks →
  omap (Grid.step chunks) (seq (idx * length chunks) j) = omap (.!! idx) (take j chunks).
Proof.
  induction j as [|j IH]; intros Hj; [done|].
  destruct (lookup_lt_is_Some_2 chunks j) as [c Hc]; [lia|].
  rewrite seq_S, omap_app, IH by lia.
  rewrite (take_S_r _ _ c) by done. rewrite omap_app. f_equal.
  cbn. rewrite step_at by lia. unfold Grid.cell. by rewrite Hc.
Qed.

Lemma omap_seq_length {B} (f : nat → option B) m :
  (∀ p, p < m → is_Some (f p)) → length (omap f (seq 0 m)) = m.
Proof.
  intros Hf.
  assert (∀ k, omap f (seq 0 m) !! k = if decide (k < m) then f k else None) as Hlook.
  { intros k. rewrite omap_seq_lookup by (intros; apply Hf; lia). done. }
  destruct (decide (length (omap f (seq 0 m)) < m)) as [Hlt|Hge].
  - pose proof (Hlook (length (omap f (seq 0 m)))) as Hk.
    rewrite decide_True in Hk by done.
    rewrite lookup_ge_None_2 in Hk by lia.
    destruct (Hf _ Hlt) as [? ?]. congruence.
  - destruct (decide (m < length (omap f (seq 0 m)))) as [Hlt|]; [|lia].
    apply lookup_lt_is_Some in Hlt. rewrite Hlook in Hlt.
    rewrite decide_False in Hlt by lia. by destruct Hlt.
Qed.

(** The loop, entered at round [idx] with the steps taken so far, ends in
    round [I] at column [J] when that is the first place without an item. *)
Lemma interleave_loop_stop chunks (I J fuel idx : nat) :
  J < length chunks → Grid.cell chunks I J = None →
  (∀ p, p < I * length chunks + J → is_Some (Grid.step chunks p)) →
  idx ≤ I → I - idx < fuel →
  interleave_loop fuel idx chunks (omap (Grid.step chunks) (seq 0 (idx * length chunks)))
    = Some (omap (Grid.step chunks) (seq 0 (I * length chunks + J))).
Proof.
  intros HJ Hstop Hsteps. revert idx.
  induction fuel as [|fuel IH]; intros idx Hidx Hfuel; [lia|].
  cbn [interleave_loop].
  destruct (decide (idx = I)) as [->|Hne].
  - destruct (lookup_lt_is_Some_2 chunks J) as [c Hc]; [done|].
    rewrite <- (take_drop J chunks) at 1.
    rewrite (drop_S _ c) by done.
    rewrite extend_round_app, extend_round_all.
    + cbn. unfold Grid.cell in Hstop. rewrite Hc in Hstop. cbn in Hstop.
      rewrite Hstop. f_equal.
      rewrite <- row_steps by lia.
      rewrite <- omap_app. f_equal.
      change (seq (I * length chunks)) with (seq (0 + I * length chunks)).
      by rewrite <- seq_app.
    + intros c' Hc'. apply elem_of_take in Hc' as (b & Hb & Hlt).
      destruct (Hsteps (I * length chunks + b)) as [x Hx]; [lia|].
      rewrite step_at in Hx by lia. unfold Grid.cell in Hx.
      rewrite Hb in Hx. by exists x.
  - rewrite extend_round_all.
    + assert (omap (.!! idx) chunks =
              omap (Grid.step chunks) (seq (idx * length chunks) (length chunks))) as ->
        by (rewrite row_steps by done; by rewrite take_ge).
      rewrite <- omap_app.
      change (seq (idx * length chunks)) with (seq (0 + idx * length chunks)).
      rewrite <- seq_app.
      replace (idx * length chunks + length chunks) with (S idx * length chunks) by lia.
      apply IH; lia.
    + intros c Hc. apply list_elem_of_lookup in Hc as [b Hb].
      pose proof (lookup_lt_Some _ _ _ Hb) as Hlt.
      destruct (Hsteps (idx * length chunks + b)) as [x Hx]; [nia|].
      rewrite step_at in Hx by lia. unfold Grid.cell in Hx.
      rewrite Hb in Hx. by exists x.
Qed.

Lemma interleave_stop chunks (I J : nat) :
  J < length chunks → Grid.cell chunks I J = None →
  (∀ p, p < I * length chunks + J → is_Some (Grid.step chunks p)) →
  ∃ r, interleave chunks = Some r ∧ length r = I * length chunks + J ∧
    ∀ p, p < I * length chunks + J → r !! p = Grid.step chunks p.
Proof.
  intros HJ Hstop Hsteps.
  exists (omap (Grid.step chunks) (seq 0 (I * length chunks + J))). split_and!.
  - apply (interleave_fuel (S I)).
    by apply (interleave_loop_stop chunks I J (S I) 0); [..|lia|lia].
  - by apply omap_seq_length.
  - intros p Hp. rewrite omap_seq_lookup by (intros; apply Hsteps; lia).
    by rewrite decide_True.
Qed.

(** X3. [interleave] stops at the first place without an item and keeps
    everything before it: when column [J] of round [I] is the first place
    (rounds in order, columns in order within a round) where a chunk has no
    item, the result has [I * len(chunks) + J] items, and its item [p] is
    item [p // len(chunks)] of chunk [p % len(chunks)].  Everything the
    chunks hold beyond that place is dropped. *)
Theorem interleave_stops_at chunks (I J : nat) :
  J < length chunks → Grid.cell chunks I J = None →
  (∀ p, p < I * length chunks + J → is_Some (Grid.step chunks p)) →
  ∃ r, interleave chunks = Some r ∧ length r = I * length chunks + J ∧
    ∀ p, p < I * length chunks + J →
      r !! p = chunks !! (p `mod` length chunks) ≫= (.!! (p `div` length chunks)).
Proof. apply interleave_stop. Qed.

(** X4. For chunks of one common length [interleave] and [chunk] are
    inverse in the other direction too: splitting the interleaved list into
    [len(chunks)] chunks gives the chunks back. *)
Theorem interleave_then_chunk chunks (m : nat) :
  chunks ≠ [] → (∀ c, c ∈ chunks → length c = m) →
  ∃ r, interleave chunks = Some r ∧ length r = m * length chunks ∧
    chunk r (length chunks) = chunks.
Proof.
  intros Hne Hlen.
  assert (1 ≤ length chunks) as HW by (destruct chunks; [done|cbn; lia]).
  assert (∀ a b c, chunks !! b = Some c → Grid.cell chunks a b = c !! a) as Hcell.
  { intros a b c Hb. unfold Grid.cell. by rewrite Hb. }
  destruct (interleave_stop chunks m 0) as (r & Hr & Hrlen & Hlook).
  - lia.
  - destruct (lookup_lt_is_Some_2 chunks 0) as [c Hc]; [lia|].
    rewrite (Hcell _ _ c Hc). apply lookup_ge_None_2.
    rewrite Hlen; [done|]. by eapply list_elem_of_lookup_2.
  - intros p Hp. unfold Grid.step.
    destruct (lookup_lt_is_Some_2 chunks (p `mod` length chunks)) as [c Hc];
      [apply Nat.mod_upper_bound; lia|].
    rewrite (Hcell _ _ c Hc). apply lookup_lt_is_Some.
    rewrite Hlen by (by eapply list_elem_of_lookup_2).
    apply Nat.Div0.div_lt_upper_bound. lia.
  - exists r. split; [done|]. split; [lia|].
    apply list_eq. intros i.
    destruct (decide (i < length chunks)) as [Hi|Hi].
    + rewrite chunk_lookup by done.
      destruct (lookup_lt_is_Some_2 chunks i Hi) as [c Hc]. rewrite Hc. f_equal.
      assert (length c = m) as Hc_len by (apply Hlen; by eapply list_elem_of_lookup_2).
      apply list_eq. intros k. rewrite slice_step_lookup by done.
      destruct (decide (k < m)) as [Hk|Hk].
      * rewrite Hlook by nia.
        replace (i + k * length chunks) with (k * length chunks + i) by lia.
        rewrite step_at by done. by apply Hcell.
      * rewrite !lookup_ge_None_2; [done|lia|nia].
    + rewrite !lookup_ge_None_2; [done|lia|rewrite chunk_length; lia].
Qed.

(** X5. [interleave] returns exactly when it is given a list with at least
    one chunk: on the empty list no round ever raises and the loop runs on,
    and for any chunk [c] of the list the loop ends within [len(c) + 1]
    rounds, so within [len(chunks[0]) + 1].  A generator of chunks is gone
    through in the first round only, so with it [interleave] returns
    exactly when one of the chunks is empty. *)
Theorem interleave_returns_iff chunks :
  ((∃ fuel r, interleave_loop fuel 0 chunks [] = Some r) ↔ chunks ≠ []) ∧
  (∀ c, c ∈ chunks → is_Some (interleave_loop (S (length c)) 0 chunks [])) ∧
  ((∃ fuel r, interleave_over fuel 0 (Generator chunks) [] = Some r) ↔
   ∃ c, c ∈ chunks ∧ c = []).
Proof.
  split; [|split].
  - split.
    + intros (fuel & r & Hr) ->. by rewrite interleave_loop_nil in Hr.
    + intros Hne. destruct chunks as [|c chunks]; [done|].
      exists (S (length c)).
      destruct (interleave_loop_fuel (S (length c)) 0 c chunks []) as [r Hr]; [lia|].
      by exists r.
  - intros c Hc. apply (interleave_loop_bound _ _ c); [done|lia].
  - split.
    + intros ([|fuel] & r & Hr); [done|]. rewrite interleave_over_generator in Hr.
      destruct (extend_round 0 chunks []) as [acc b] eqn:Hround.
      destruct b; [|done].
      assert ((extend_round 0 chunks []).2 = true) as Hraise by (by rewrite Hround).
      apply extend_round_raises_iff in Hraise as (c & Hc & Hlen).
      exists c. split; [done|]. destruct c; [done|cbn in Hlen; lia].
    + intros (c & Hc & ->). exists 1.
      assert ((extend_round 0 chunks []).2 = true) as Hraise.
      { apply extend_round_raises_iff. exists []. split; [done|cbn; lia]. }
      rewrite interleave_over_generator.
      destruct (extend_round 0 chunks []) as [acc b]. cbn in Hraise. subst b.
      by exists acc.
Qed.

End interleave_more.

Lemma interleave_stops_at_witness :
  ∃ r, interleave [[0; 3; 6]; [1]; [2; 5]] = Some r ∧ length r = 1 * 3 + 1 ∧
    ∀ p, p < 1 * 3 + 1 →
      r !! p = [[0; 3; 6]; [1]; [2; 5]] !! (p `mod` 3) ≫= (.!! (p `div` 3)).
Proof.
  apply (interleave_stops_at [[0; 3; 6]; [1]; [2; 5]] 1 1).
  - cbn. lia.
  - reflexivity.
  - intros p Hp. cbn in Hp.
    destruct p as [|[|[|[|p]]]]; [by eexists..|lia].
Defined.

Lemma interleave_then_chunk_witness :
  ∃ r, interleave [[0; 3]; [1; 4]; [2; 5]] = Some r ∧ length r = 2 * 3 ∧
    chunk r 3 = [[0; 3]; [1; 4]; [2; 5]].
Proof.
  apply (interleave_then_chunk [[0; 3]; [1; 4]; [2; 5]] 2).
  - done.
  - intros c Hc. repeat (apply elem_of_cons in Hc as [->|Hc]; [reflexivity|]).
    by apply elem_of_nil in Hc.
Defined.

(** ** More on the generation loop *)

Section generation_more.
Context {Score TikzDocument : Type}.
Context `{Countable Score, Countable TikzDocument}.
Variable score_lt : Score → Score → bool.
Variable is_rasterizable compiled_with_errors : TikzDocument → bool.
Variable set_iter : gset (Score * TikzDocument) → list (Score * TikzDocument).
Variable simulate : nat → option (Score * TikzDocument).
Variable strict : bool.
Variable start : Q.
Variable clock : nat → Q.

Local Abbreviation succeeds := (Generation.succeeds is_rasterizable compiled_with_errors strict).
Local Abbreviation generate_loop :=
  (Generation.generate_loop is_rasterizable compiled_with_errors simulate strict).
Local Abbreviation generate :=
  (Generation.generate score_lt is_rasterizable compiled_with_errors set_iter simulate strict).
Local Abbreviation succeeded_by :=
  (Generation.succeeded_by is_rasterizable compiled_with_errors simulate strict).
Local Abbreviation observed := (Generation.observed simulate).
Local Abbreviation finalize := (Generation.finalize score_lt set_iter).

Lemma observed_length n : length (observed n) ≤ n.
Proof.
  unfold Generation.observed. rewrite <- (length_seq n 0) at 2.
  generalize (seq 0 n). intros l. induction l as [|x l IH]; [done|].
  cbn. destruct (simulate x); cbn; lia.
Qed.

(** X6. When the generator is exhausted before any artifact meets the
    success criterion, the loop ends by itself: it has taken every pair,
    [success] is still false, and the set holds exactly the pairs seen (the
    caller gets a batch without a successful artifact). *)
Theorem generate_exhausted_without_success (timeout : option Z) (n fuel : nat) :
  simulate n = None →
  (∀ j, j < n → ∃ score tikzpic, simulate j = Some (score, tikzpic) ∧ succeeds tikzpic = false) →
  n < fuel →
  generate_loop timeout start clock fuel 0 false ∅ =
    Some (Generation.LoopState n false (list_to_set (observed n))).
Proof.
  intros Hend Hfail Hfuel.
  destruct (generate_loop_halts is_rasterizable compiled_with_errors simulate strict
              timeout start clock fuel 0 false ∅ n) as (st & Hst & Hle);
    [lia|lia|by left|].
  rewrite Hst. f_equal.
  apply generate_loop_spec in Hst as (_ & Hsome & Hset & Hflag & Hexit).
  assert (Generation.success st = false) as Hsucc.
  { apply not_true_iff_false. intros Hs. apply Hflag in Hs as [?|(j & s & t & ? & Hj & Ht)];
      [done|].
    assert (j < n) as Hjn.
    { destruct (decide (j < n)); [done|].
      assert (j = n) as -> by lia. congruence. }
    destruct (Hfail j Hjn) as (s' & t' & Hj' & Ht'). congruence. }
  assert (Generation.consumed st = n) as Hn.
  { destruct Hexit as [Hnone|(j & _ & _ & Hs & _)]; [|congruence].
    destruct (decide (Generation.consumed st = n)) as [|Hne]; [done|].
    destruct (decide (Generation.consumed st < n)) as [Hlt|Hge].
    - destruct (Hfail _ Hlt) as (? & ? & ? & _). congruence.
    - destruct (Hsome n) as [? ?]; [lia|congruence]. }
  destruct st as [c s t]. cbn in *. subst c s. f_equal.
  rewrite Hset, Nat.sub_0_r. unfold Generation.observed.
  by rewrite (left_id_L ∅ (∪)).
Qed.

(** X7. [generate] does not return while the generator keeps yielding and
    the break test fails: when the generator is never exhausted and, once
    success has been achieved, a nonzero timeout has not yet elapsed, no
    amount of fuel gives a result. *)
Theorem generate_runs_on (timeout : option Z) :
  (∀ k, is_Some (simulate k)) →
  (∀ k, succeeded_by (S k) →
     ∃ t, timeout = Some t ∧ t ≠ 0%Z ∧ (clock k - start < inject_Z t)%Q) →
  ∀ fuel, generate timeout start clock fuel = None.
Proof.
  intros Hsome Hpending fuel. unfold Generation.generate.
  destruct (generate_loop timeout start clock fuel 0 false ∅) as [st|] eqn:Hst; [|done].
  exfalso.
  apply generate_loop_spec in Hst as (_ & _ & _ & Hflag & [Hnone|(j & Hj & _ & Hs & Hover)]).
  - destruct (Hsome (Generation.consumed st)) as [? ?]. congruence.
  - apply Hflag, flag_after_0 in Hs. rewrite Hj in Hs.
    destruct (Hpending j Hs) as (t & Ht & Hne & Hlt).
    unfold Generation.timeout_over in Hover. rewrite Ht in Hover.
    apply orb_true_iff in Hover as [Hzero|Hle]; [lia|].
    apply Qle_bool_iff in Hle. by apply Qlt_not_le in Hlt.
Qed.

Lemma generate_loop_no_clock (timeout : option Z) fuel k success set :
  Driver.metric_type timeout = "fast"%string →
  generate_loop timeout start clock fuel k success set =
    generate_loop None start clock fuel k success set.
Proof.
  intros Hfast.
  assert (∀ j, Generation.timeout_over timeout start clock j =
               Generation.timeout_over None start clock j) as Hover.
  { intros j. unfold Generation.timeout_over, Driver.metric_type in *.
    destruct timeout as [t|]; [|done]. by destruct (t =? 0)%Z. }
  revert k success set. induction fuel as [|fuel IH]; intros k success set; [done|].
  cbn [Generation.generate_loop]. destruct (simulate k) as [[s t]|]; [|done].
  rewrite Hover. destruct (_ && _); [done|apply IH].
Qed.

(** X8. Whenever [predict] picks the "fast" metric (no timeout, or the
    timeout 0), [generate] runs as it does without a timeout and stops at
    the first success, whatever the clock shows; the timeout 0 is the one
    case in which the driver still reports the sampling throughput. *)
Theorem fast_metric_stops_at_first_success (timeout : option Z) :
  (Driver.metric_type timeout = "fast"%string →
   ∀ fuel, generate timeout start clock fuel = generate None start clock fuel) ∧
  (Driver.metric_type timeout = "fast"%string ∧ Driver.measure_throughput timeout = true
   ↔ timeout = Some 0%Z).
Proof.
  split.
  - intros Hfast fuel. unfold Generation.generate.
    by rewrite generate_loop_no_clock.
  - unfold Driver.metric_type, Driver.measure_throughput.
    destruct timeout as [t|]; [|naive_solver].
    destruct (t =? 0)%Z eqn:Ht; [|naive_solver].
    apply Z.eqb_eq in Ht as ->. naive_solver.
Qed.

(** X9. The batch [generate] returns never has more artifacts than pairs
    were taken from the generator, and it is empty exactly when the
    generator yields nothing at all. *)
Theorem generate_batch_size (timeout : option Z) (fuel : nat) (st : Generation.loop_state) :
  (∀ s, set_iter s ≡ₚ elements s) →
  generate_loop timeout start clock fuel 0 false ∅ = Some st →
  length (finalize (Generation.tikzpics st)) ≤ Generation.consumed st ∧
  (finalize (Generation.tikzpics st) = [] ↔ simulate 0 = None).
Proof.
  intros Hiter Hst.
  assert (∀ p, p ∈ Generation.tikzpics st ↔ p ∈ observed (Generation.consumed st))
    as Hin by (intros p; by eapply generate_loop_tikzpics).
  assert (finalize (Generation.tikzpics st) ≡ₚ (elements (Generation.tikzpics st)).*2)
    as Hperm.
  { unfold Generation.finalize. by rewrite sorted_perm, Hiter. }
  split.
  - rewrite Hperm, length_fmap.
    etrans; [|apply (observed_length (Generation.consumed st))].
    apply submseteq_length, NoDup_submseteq; [apply NoDup_elements|].
    intros p Hp. by apply Hin, elem_of_elements.
  - apply generate_loop_spec in Hst as (_ & Hsome & _ & _ & Hexit).
    split.
    + intros Hnil. rewrite Hnil in Hperm. symmetry in Hperm.
      apply Permutation_nil_r, fmap_nil_inv in Hperm.
      destruct (decide (Generation.consumed st = 0)) as [Hzero|Hpos].
      * destruct Hexit as [Hnone|(j & ? & _)]; [by rewrite Hzero in Hnone|lia].
      * destruct (Hsome 0) as [p Hp]; [lia|].
        assert (p ∈ elements (Generation.tikzpics st)) as Hp'.
        { apply elem_of_elements, Hin, elem_of_observed. exists 0. split; [lia|done]. }
        rewrite Hperm in Hp'. by apply elem_of_nil in Hp'.
    + intros Hnone.
      assert (Generation.consumed st = 0) as Hzero.
      { destruct (decide (Generation.consumed st = 0)); [done|].
        destruct (Hsome 0) as [? ?]; [lia|congruence]. }
      assert (elements (Generation.tikzpics st) = []) as Hempty.
      { destruct (elements (Generation.tikzpics st)) as [|p ps] eqn:Hel; [done|].
        assert (p ∈ observed (Generation.consumed st)) as Hp
          by (apply Hin, elem_of_elements; rewrite Hel; by left).
        rewrite Hzero in Hp. by apply elem_of_nil in Hp. }
      rewrite Hempty in Hperm. by apply Permutation_nil_r in Hperm.
Qed.

End generation_more.

Lemma generate_exhausted_without_success_witness :
  Stub.generate_loop [(1%Z, Stub.bad "a"); (2%Z, Stub.bad "b")] 5 =
    Some (Generation.LoopState 2 false
            (list_to_set (Generation.observed
                            (Stub.engine [(1%Z, Stub.bad "a"); (2%Z, Stub.bad "b")]) 2))).
Proof.
  apply (generate_exhausted_without_success Stub.doc_rasterizable Stub.doc_errors
           (Stub.engine [(1%Z, Stub.bad "a"); (2%Z, Stub.bad "b")]) false
           0%Q Stub.frozen_clock None 2 5).
  - reflexivity.
  - intros j Hj. destruct j as [|[|j]]; [by eexists _, _..|lia].
  - lia.
Defined.

Lemma generate_runs_on_witness :
  Generation.generate Z.ltb Stub.doc_rasterizable Stub.doc_errors elements
    Stub.endless false None 0%Q Stub.frozen_clock 100 = None.
Proof.
  refine (generate_runs_on Z.ltb Stub.doc_rasterizable Stub.doc_errors elements
            Stub.endless false 0%Q Stub.frozen_clock None _ _ 100).
  - intros k. by eexists.
  - intros k (j & s & t & _ & Hj & Ht). exfalso.
    unfold Stub.endless in Hj. injection Hj as _ <-. discriminate.
Defined.

Lemma fast_metric_stops_at_first_success_witness :
  Generation.generate Z.ltb Stub.doc_rasterizable Stub.doc_errors elements
    (Stub.engine Stub.rising_pairs) false (Some 0%Z) 0%Q (λ k, inject_Z (Z.of_nat k)) 10
  = Generation.generate Z.ltb Stub.doc_rasterizable Stub.doc_errors elements
      (Stub.engine Stub.rising_pairs) false None 0%Q (λ k, inject_Z (Z.of_nat k)) 10.
Proof.
  apply (proj1 (fast_metric_stops_at_first_success Z.ltb Stub.doc_rasterizable
                  Stub.doc_errors elements (Stub.engine Stub.rising_pairs) false 0%Q
                  (λ k, inject_Z (Z.of_nat k)) (Some 0%Z))).
  reflexivity.
Defined.

Lemma generate_batch_size_witness :
  length (Generation.finalize Z.ltb elements
            (list_to_set (take 3 Stub.rising_pairs) : gset (Z * Stub.document))) ≤ 3.
Proof.
  assert (Stub.generate_loop Stub.rising_pairs 10 =
            Some (Generation.LoopState 3 true (list_to_set (take 3 Stub.rising_pairs))))
    as Hst by (vm_compute; reflexivity).
  apply (proj1 (generate_batch_size Z.ltb _ _ elements _ _ _ _ _ 10 _
                  (λ s, reflexivity _) Hst)).
Defined.

(** ** More on the prediction runner *)

Section runner_more.
Context {Item TikzDocument : Type}.
Variable TikzDocument_new : string → TikzDocument.
Variable code : TikzDocument → string.
Variables WORLD_SIZE RANK : nat.
Variable load : result unit.
Variable run_generate : Item → result (list TikzDocument).
Variable peers : nat → list (list TikzDocument).
Variable files : string → option (list (list string)).

Local Abbreviation all_gather := (Runner.all_gather WORLD_SIZE RANK peers).
Local Abbreviation resume := (Runner.resume TikzDocument_new files).
Local Abbreviation persist := (Runner.persist (Item := Item) code RANK).
Local Abbreviation predict :=
  (Runner.predict TikzDocument_new code WORLD_SIZE RANK load run_generate peers files).

(** The lists the ranks hold when this rank has finished [finished] and the
    others all of their chunks. *)
Lemma interleave_after_failure (remaining finished rest : list Item) (item : Item) :
  1 ≤ WORLD_SIZE → RANK < WORLD_SIZE →
  slice_step remaining RANK WORLD_SIZE = finished ++ item :: rest →
  interleave ((λ r, if decide (r = RANK) then finished
                    else slice_step remaining r WORLD_SIZE) <$> seq 0 WORLD_SIZE)
    = Some (take (length finished * WORLD_SIZE + RANK) remaining).
Proof.
  intros HW HR Hown.
  set (gathered := (λ r, if decide (r = RANK) then finished
                         else slice_step remaining r WORLD_SIZE) <$> seq 0 WORLD_SIZE).
  assert (length gathered = WORLD_SIZE) as Hlen
    by (unfold gathered; by rewrite length_fmap, length_seq).
  assert (∀ a b, b < WORLD_SIZE →
            Grid.cell gathered a b =
              if decide (b = RANK) then finished !! a
              else remaining !! (b + a * WORLD_SIZE)) as Hcell.
  { intros a b Hb. unfold Grid.cell, gathered.
    rewrite list_lookup_fmap, lookup_seq_lt by done. cbn.
    case_decide; [done|]. by apply slice_step_lookup. }
  assert (∀ a, a ≤ length finished →
            (finished ++ item :: rest) !! a = remaining !! (RANK + a * WORLD_SIZE)) as Hmine.
  { intros a _. rewrite <- Hown. by apply slice_step_lookup. }
  assert (length finished * WORLD_SIZE + RANK < length remaining) as Hbound.
  { apply lookup_lt_is_Some. replace (_ + _) with (RANK + length finished * WORLD_SIZE) by lia.
    rewrite <- Hmine by done. rewrite list_lookup_middle by done. by eexists. }
  assert (∀ p, p < length finished * WORLD_SIZE + RANK →
            Grid.step gathered p = remaining !! p) as Hstep.
  { intros p Hp. unfold Grid.step. rewrite Hlen.
    pose proof (Nat.div_mod_eq p WORLD_SIZE) as Hdiv.
    pose proof (Nat.mod_upper_bound p WORLD_SIZE ltac:(lia)) as Hmod.
    rewrite Hcell by done. case_decide as Hb.
    - assert (p `div` WORLD_SIZE < length finished) as Ha by nia.
      rewrite <- (lookup_app_l finished (item :: rest)) by done.
      rewrite Hmine by lia. f_equal. lia.
    - f_equal. lia. }
  destruct (interleave_stop gathered (length finished) RANK) as (r & Hr & Hrlen & Hlook).
  - by rewrite Hlen.
  - rewrite Hcell by done. rewrite decide_True by done. by apply lookup_ge_None_2.
  - rewrite Hlen. intros p Hp. rewrite Hstep by done. apply lookup_lt_is_Some. lia.
  - rewrite Hr. f_equal. rewrite Hlen in Hrlen, Hlook.
    apply list_eq. intros p.
    destruct (decide (p < length finished * WORLD_SIZE + RANK)) as [Hp|Hp].
    + by rewrite Hlook, Hstep, lookup_take_lt.
    + rewrite lookup_ge_None_2 by lia. symmetry. apply lookup_take_ge. lia.
Qed.

(** X10. A failure leaves an aligned cache behind.  When this rank's
    [generate] raises after it has finished [f] items and every other rank
    has finished its whole chunk, [predict] extends the cached entries by
    the batches of the first [f * WORLD_SIZE + RANK] remaining dataset
    items, in dataset order, writes that (on rank 0, with a cache path) and
    raises; the batches the other ranks produced beyond them are dropped. *)
Theorem predict_failure_keeps_prefix (testset : list Item) (cache_file : option string)
    (gen : Item → list TikzDocument) (finished rest : list Item) (item : Item)
    (e : exception) :
  load = Ok () → 1 ≤ WORLD_SIZE → RANK < WORLD_SIZE →
  chunk (drop (length (resume cache_file)) testset) WORLD_SIZE !! RANK
    = Some (finished ++ item :: rest) →
  (∀ i, i ∈ finished → run_generate i = Ok (gen i)) →
  run_generate item = Raise e →
  (∀ r, r ≠ RANK → r < WORLD_SIZE →
     peers r = gen <$> slice_step (drop (length (resume cache_file)) testset) r WORLD_SIZE) →
  predict testset cache_file =
    Some ((Runner.Generate <$> finished ++ [item]) ++
          [Runner.AllGather (gen <$> finished) (all_gather (gen <$> finished));
           Runner.Extend
             (gen <$> take (length finished * WORLD_SIZE + RANK)
                        (drop (length (resume cache_file)) testset))] ++
          persist cache_file
            (resume cache_file ++
             (gen <$> take (length finished * WORLD_SIZE + RANK)
                        (drop (length (resume cache_file)) testset))),
          Raise e).
Proof.
  intros Hload HW HR Hchunk Hok Hraise Hpeers.
  set (remaining := drop (length (resume cache_file)) testset) in *.
  assert (slice_step remaining RANK WORLD_SIZE = finished ++ item :: rest) as Hown.
  { rewrite chunk_lookup in Hchunk by done. by simplify_eq. }
  assert (all_gather (gen <$> finished) =
            (λ c : list Item, gen <$> c) <$>
              ((λ r, if decide (r = RANK) then finished
                     else slice_step remaining r WORLD_SIZE) <$> seq 0 WORLD_SIZE))
    as Hgather.
  { unfold Runner.all_gather. rewrite <- list_fmap_compose. apply list_fmap_ext.
    intros i r Hr. apply lookup_seq in Hr as [-> Hr]. cbn.
    case_decide; [done|]. by apply Hpeers. }
  unfold Runner.predict, Runner.try_body. rewrite Hload. fold remaining. rewrite Hchunk.
  rewrite (generate_all_raise run_generate gen finished rest item e) by done.
  cbn [Runner.trace Runner.worker_preds Runner.raised app].
  rewrite Hgather at 1.
  rewrite interleave_fmap, (interleave_after_failure remaining finished rest item) by done.
  cbn. by rewrite Hgather.
Qed.

(** Reading the cache and taking the codes again gives the cache. *)
Lemma codes_of_new (samples : list (list string)) :
  (∀ c, code (TikzDocument_new c) = c) →
  (λ ps : list TikzDocument, code <$> ps) <$>
    ((λ sample : list string, TikzDocument_new <$> sample) <$> samples) = samples.
Proof.
  intros Hcode.
  rewrite <- list_fmap_compose. rewrite <- (list_fmap_id samples) at 2.
  apply list_fmap_ext. intros _ sample _. cbn.
  rewrite <- list_fmap_compose. rewrite <- (list_fmap_id sample) at 2.
  apply list_fmap_ext. intros _ c _. apply Hcode.
Qed.

(** X11. The cache only grows at its end: when [TikzDocument(code).code] is
    [code], a run of [predict] on rank 0 that resumes from the entries
    [samples] and comes to its end, normally or with an exception from the
    generation, last of all writes the cache file with [samples] as the
    leading entries. *)
Theorem predict_cache_append_only (testset : list Item) (cache_file : option string)
    (path : string) (samples : list (list string)) trace outcome :
  (∀ c, code (TikzDocument_new c) = c) →
  load = Ok () → RANK = 0 →
  Runner.configured cache_file = Some path → files path = Some samples →
  predict testset cache_file = Some (trace, outcome) →
  ∃ new, last trace = Some (Runner.Dump path (samples ++ new)).
Proof.
  intros Hcode Hload Hrank Hpath Hfile. unfold Runner.predict. rewrite Hload.
  rewrite (resume_cached TikzDocument_new files cache_file path samples) by done.
  destruct (interleave _) as [interleaved|]; [|done]. cbn. intros [= <- _].
  exists ((λ ps : list TikzDocument, code <$> ps) <$> interleaved).
  unfold Runner.persist. rewrite Hpath, decide_True by done.
  rewrite last_app. cbn [app last]. do 2 f_equal.
  by rewrite fmap_app, codes_of_new.
Qed.

(** X12. A run over a complete cache does nothing new: when the cache
    already holds an entry for every dataset item and no rank has anything
    to send, rank 0 calls [generate] for no item and writes the cache with
    the content it had. *)
Theorem predict_complete_cache (testset : list Item) (cache_file : option string)
    (path : string) (samples : list (list string)) :
  (∀ c, code (TikzDocument_new c) = c) →
  load = Ok () → 1 ≤ WORLD_SIZE → RANK = 0 →
  Runner.configured cache_file = Some path → files path = Some samples →
  length testset ≤ length samples →
  (∀ r, peers r = []) →
  predict testset cache_file =
    Some ([Runner.AllGather [] (replicate WORLD_SIZE []); Runner.Extend [];
           Runner.Dump path samples],
          Ok ((λ sample : list string, TikzDocument_new <$> sample) <$> samples)).
Proof.
  intros Hcode Hload HW Hrank Hpath Hfile Hlen Hpeers.
  unfold Runner.predict, Runner.try_body. rewrite Hload.
  rewrite (resume_cached TikzDocument_new files cache_file path samples) by done.
  rewrite length_fmap, drop_ge by done.
  rewrite chunk_lookup by lia.
  assert (∀ i, slice_step ([] : list Item) i WORLD_SIZE = []) as Hempty.
  { intros i. unfold slice_step, slice_length. cbn. by rewrite decide_True by lia. }
  rewrite Hempty. cbn [Runner.generate_all Runner.trace Runner.worker_preds Runner.raised].
  assert (∀ s w, (λ r, if decide (r = RANK) then [] else peers r) <$> seq s w
                 = replicate w []) as Hnothing.
  { intros s w. revert s. induction w as [|w IH]; intros s; [done|].
    cbn. rewrite IH. f_equal. case_decide; [done|apply Hpeers]. }
  unfold Runner.all_gather. rewrite Hnothing.
  assert (interleave (replicate WORLD_SIZE ([] : list (list TikzDocument))) = Some [])
    as -> by (destruct WORLD_SIZE; [lia|done]).
  cbn [mbind option_bind]. unfold Runner.persist. rewrite Hpath, decide_True by done.
  by rewrite app_nil_r, codes_of_new.
Qed.

End runner_more.

Lemma predict_failure_keeps_prefix_witness :
  Stub.predict Stub.failing_run_generate Stub.no_files ["a"; "b"; "c"; "d"; "e"; "f"; "g"] =
    Some ([Runner.Generate "a"; Runner.Generate "c";
           Runner.AllGather [[Stub.good "a"]]
             [[[Stub.good "a"]]; [[Stub.good "b"]; [Stub.good "d"]; [Stub.good "f"]]];
           Runner.Extend [[Stub.good "a"]; [Stub.good "b"]];
           Runner.Dump "cache.json" [["a"]; ["b"]]],
          Raise (OtherError "engine failure")).
Proof.
  apply (predict_failure_keeps_prefix Stub.good Stub.doc_code 2 0 (Ok ())
           Stub.failing_run_generate
           (Stub.peer_batches ["a"; "b"; "c"; "d"; "e"; "f"; "g"] 2)
           Stub.no_files ["a"; "b"; "c"; "d"; "e"; "f"; "g"] (Some "cache.json")
           Stub.batch_of ["a"] ["e"; "g"] "c" (OtherError "engine failure")).
  - reflexivity.
  - lia.
  - lia.
  - reflexivity.
  - intros i Hi. apply list_elem_of_singleton in Hi as ->.
    unfold Stub.failing_run_generate. rewrite decide_False by done.
    apply stub_run_generate.
  - reflexivity.
  - intros r _ _. reflexivity.
Defined.

Lemma predict_cache_append_only_witness :
  ∃ trace outcome new,
    Stub.predict Stub.run_generate Stub.one_cached ["a"; "b"; "c"] = Some (trace, outcome) ∧
    last trace = Some (Runner.Dump "cache.json" ([["a"]] ++ new)).
Proof.
  destruct (Stub.predict Stub.run_generate Stub.one_cached ["a"; "b"; "c"])
    as [[trace outcome]|] eqn:Hpredict; [|by vm_compute in Hpredict].
  destruct (predict_cache_append_only Stub.good Stub.doc_code 2 0 (Ok ())
              Stub.run_generate (Stub.peer_batches ["b"; "c"] 2) Stub.one_cached
              ["a"; "b"; "c"] (Some "cache.json") "cache.json" [["a"]] trace outcome)
    as [new Hnew]; [done..|].
  by exists trace, outcome, new.
Defined.

Lemma predict_complete_cache_witness :
  Stub.predict Stub.run_generate Stub.one_cached ["a"] =
    Some ([Runner.AllGather [] [[]; []]; Runner.Extend []; Runner.Dump "cache.json" [["a"]]],
          Ok [[Stub.good "a"]]).
Proof.
  apply (predict_complete_cache Stub.good Stub.doc_code 2 0 (Ok ())
           Stub.run_generate (Stub.peer_batches [] 2) Stub.one_cached
           ["a"] (Some "cache.json") "cache.json" [["a"]]).
  - done.
  - done.
  - lia.
  - done.
  - done.
  - done.
  - cbn. lia.
  - intros r. unfold Stub.peer_batches, slice_step, slice_length. cbn.
    by rewrite decide_True by lia.
Defined.

(** ** More on the structural statistics *)

Section statistics_more.
Import Metrics.

Lemma sum_bounds (lo hi : Q) (w : list Q) :
  Forall (λ x, lo <= x ∧ x <= hi)%Q w →
  (inject_Z (Z.of_nat (length w)) * lo <= foldr Qplus 0 w ∧
   foldr Qplus 0 w <= inject_Z (Z.of_nat (length w)) * hi)%Q.
Proof.
  induction 1 as [|x w [Hlo Hhi] _ [IHlo IHhi]]; cbn [foldr length].
  - change (inject_Z (Z.of_nat 0)) with 0%Q. split; lra.
  - rewrite Nat2Z.inj_succ, <- Z.add_1_r, inject_Z_plus.
    change (inject_Z 1) with 1%Q. split; nra.
Qed.

(** The mean of values between two bounds lies between the bounds. *)
Lemma mean_bounds (lo hi : Q) (w : list Q) :
  w ≠ [] → Forall (λ x, lo <= x ∧ x <= hi)%Q w →
  (lo <= mean w ∧ mean w <= hi)%Q.
Proof.
  intros Hne Hall. destruct (sum_bounds lo hi w Hall) as [Hlo Hhi].
  assert (0 < inject_Z (Z.of_nat (length w)))%Q as Hpos.
  { change 0%Q with (inject_Z 0). rewrite <- Zlt_Qlt. destruct w; [done|cbn; lia]. }
  unfold mean. split.
  - apply Qle_shift_div_l; [done|]. by rewrite Qmult_comm.
  - apply Qle_shift_div_r; [done|]. by rewrite Qmult_comm.
Qed.

(** Winsorizing keeps the number of samples and only moves values that
    are there. *)
Lemma winsorize_values (a w : list Q) :
  winsorize a limit = Ok w → a ≠ [] ∧ length w = length a ∧ ∀ x, x ∈ w → x ∈ a.
Proof.
  intros Hw. destruct a as [|x0 a]; [done|].
  destruct (winsorize_ranks (x0 :: a)) as (w' & Hw' & Hlen & Hranks); [cbn; lia|].
  assert (w' = w) as -> by congruence.
  split; [done|]. split; [done|]. intros x Hx.
  apply list_elem_of_lookup in Hx as [p Hp].
  assert (p ∈ argsort (x0 :: a)) as Hin.
  { rewrite argsort_perm. apply elem_of_seq.
    apply lookup_lt_Some in Hp. lia. }
  apply list_elem_of_lookup in Hin as [r Hr].
  rewrite (Hranks r p Hr) in Hp.
  destruct (argsort (x0 :: a) !! _) as [q|]; [|done]. cbn in Hp.
  by eapply list_elem_of_lookup_2.
Qed.

Lemma comprehension_Forall {A B} (f : A → result B) (P : B → Prop) (l : list A) :
  (∀ x, x ∈ l → ∃ y, f x = Ok y ∧ P y) →
  ∃ ys, comprehension f l = Ok ys ∧ Forall P ys ∧ length ys = length l.
Proof.
  induction l as [|x l IH]; intros Hf.
  - exists []. by split_and!.
  - destruct (Hf x) as (y & Hy & HP); [by left|].
    destruct IH as (ys & Hys & Hall & Hlen); [intros; apply Hf; by right|].
    exists (y :: ys). cbn [comprehension]. rewrite Hy, Hys.
    split_and!; [done|by constructor|cbn; lia].
Qed.

(** When some item raises [e] and no item raises anything else, the
    comprehension raises [e]. *)
Lemma comprehension_raise_only {A B} (f : A → result B) (l : list A) e :
  (∃ x, x ∈ l ∧ f x = Raise e) →
  (∀ y e', y ∈ l → f y = Raise e' → e' = e) →
  comprehension f l = Raise e.
Proof.
  induction l as [|x l IH]; intros (x' & Hin & Hx') Honly.
  - by apply elem_of_nil in Hin.
  - cbn [comprehension]. destruct (f x) as [y|e'] eqn:Hx.
    + rewrite bind_Ok. rewrite IH; [done| |].
      * apply elem_of_cons in Hin as [->|Hin]; [congruence|]. by exists x'.
      * intros y' e' Hy'. apply Honly. by right.
    + by rewrite (Honly x e') by (done || by left).
Qed.

End statistics_more.

Section metrics_more.
Context {Reference TikzDocument Image : Type}.
Variable code : TikzDocument → string.
Variable is_rasterizable : TikzDocument → bool.
Variable rasterize : TikzDocument → option Image.
Variable library_metrics :
  list Reference → list string → list (option Image) → list (string * Q).

Local Abbreviation total_length :=
  (λ preds : list TikzDocument,
     foldr Z.add 0%Z ((λ pred, Metrics.len (code pred)) <$> preds)).

Lemma len_nonneg (s : string) : (0 ≤ Metrics.len s)%Z.
Proof. unfold Metrics.len. lia. Qed.

Lemma total_length_nonneg preds : (0 ≤ total_length preds)%Z.
Proof.
  induction preds as [|t preds IH]; cbn; [done|].
  pose proof (len_nonneg (code t)). lia.
Qed.

Lemma last_length_le preds final :
  last preds = Some final → (Metrics.len (code final) ≤ total_length preds)%Z.
Proof.
  induction preds as [|t preds IH]; [done|].
  destruct preds as [|t' preds].
  - intros [= ->]. cbn. lia.
  - intros Hlast. change (last (t :: t' :: preds)) with (last (t' :: preds)) in Hlast.
    specialize (IH Hlast). cbn in *. pose proof (len_nonneg (code t)). lia.
Qed.

(** Every ratio is between 0 and 1. *)
Lemma token_efficiency_bounds preds ratio :
  Metrics.token_efficiency code preds = Ok ratio → (0 <= ratio ∧ ratio <= 1)%Q.
Proof.
  unfold Metrics.token_efficiency, last_item, Metrics.true_div.
  destruct (last preds) as [final|] eqn:Hlast; [|done]. rewrite bind_Ok.
  case_decide as Hzero; [done|]. intros [= <-].
  pose proof (last_length_le preds final Hlast) as Hle.
  pose proof (len_nonneg (code final)) as Hpos. cbv beta in *.
  assert (0 < inject_Z (total_length preds))%Q as Hsum.
  { change 0%Q with (inject_Z 0). rewrite <- Zlt_Qlt. lia. }
  split.
  - apply Qle_shift_div_l; [done|]. rewrite Qmult_0_l.
    change 0%Q with (inject_Z 0). by rewrite <- Zle_Qle.
  - apply Qle_shift_div_r; [done|]. rewrite Qmult_1_l. by rewrite <- Zle_Qle.
Qed.

(** X13. The mean token efficiency, whenever it is computed, lies between
    0 and 1. *)
Theorem mean_token_efficiency_bounds (predictions : list (list TikzDocument)) (v : Q) :
  Metrics.mean_token_efficiency code predictions = Ok v → (0 <= v ∧ v <= 1)%Q.
Proof.
  unfold Metrics.mean_token_efficiency. intros Hv.
  apply bind_ok_inv in Hv as (ratios & Hratios & Hv).
  apply bind_ok_inv in Hv as (w & Hw & [= <-]).
  apply winsorize_values in Hw as (Hne & Hlen & Hvalues).
  apply mean_bounds.
  - intros ->. by destruct ratios.
  - apply Forall_forall. intros x Hx. apply Hvalues in Hx.
    apply comprehension_inv in Hratios.
    destruct (Forall2_elem_of_r _ _ _ _ Hratios Hx) as (preds & _ & Hpreds).
    by eapply token_efficiency_bounds.
Qed.

(** X14. When every item was solved by its first candidate, a single
    artifact with code that is not empty, the mean token efficiency is 1. *)
Theorem mean_token_efficiency_first_try (predictions : list (list TikzDocument)) :
  predictions ≠ [] →
  (∀ preds, preds ∈ predictions → ∃ t, preds = [t] ∧ code t ≠ EmptyString) →
  ∃ v, Metrics.mean_token_efficiency code predictions = Ok v ∧ (v == 1)%Q.
Proof.
  intros Hne Hone.
  destruct (comprehension_Forall (Metrics.token_efficiency code)
              (λ r, 1 <= r ∧ r <= 1)%Q predictions) as (ratios & Hratios & Hall & Hlen).
  { intros preds Hpreds. destruct (Hone preds Hpreds) as (t & -> & Hcode).
    assert (Metrics.len (code t) ≠ 0%Z) as Hpos.
    { unfold Metrics.len. destruct (code t); [done|cbn; lia]. }
    eexists. split.
    - unfold Metrics.token_efficiency, last_item, Metrics.true_div. cbn.
      rewrite Z.add_0_r. by rewrite decide_False.
    - assert (inject_Z (Metrics.len (code t)) / inject_Z (Metrics.len (code t)) == 1)%Q
        as Hone'.
      { apply Qmult_inv_r. change 0%Q with (inject_Z 0). by rewrite inject_Z_injective. }
      rewrite Hone'. split; lra. }
  destruct (winsorize_ranks ratios) as (w & Hw & Hwlen & _).
  { rewrite Hlen. destruct predictions; [done|cbn; lia]. }
  exists (Metrics.mean w). split.
  - unfold Metrics.mean_token_efficiency. by rewrite Hratios, bind_Ok, Hw.
  - apply winsorize_values in Hw as (Hne' & _ & Hvalues).
    destruct (mean_bounds 1 1 w) as [Hlo Hhi].
    + intros ->. by destruct ratios.
    + apply Forall_forall. intros x Hx. apply Hvalues in Hx.
      rewrite Forall_forall in Hall. by apply Hall.
    + by apply Qle_antisym.
Qed.

(** X15. An item whose candidates all have empty code makes [compute] raise
    [ZeroDivisionError] when the token efficiency is asked for: with no
    empty prediction and all final artifacts rasterizable the assertion
    passes, and the division by the summed length 0 fails. *)
Theorem compute_zero_division (references : list Reference)
    (predictions : list (list TikzDocument)) :
  (∀ pred, pred ∈ predictions →
     ∃ final, last pred = Some final ∧ is_rasterizable final = true) →
  (∃ preds, preds ∈ predictions ∧ ∀ t, t ∈ preds → code t = EmptyString) →
  Metrics.compute code is_rasterizable rasterize false library_metrics
    references predictions = Raise ZeroDivisionError.
Proof.
  intros Hok (empty & Hin & Hempty).
  destruct (finals_ok predictions) as (finals & Hall & Hfinals & Hg).
  { intros pred Hpred ->. by destruct (Hok [] Hpred) as (? & ? & _). }
  unfold Metrics.compute. rewrite !Hg, Hfinals, !bind_Ok.
  assert (forallb is_rasterizable finals = true) as ->.
  { apply forallb_forall. intros final Hfinal. apply list_elem_of_In in Hfinal.
    destruct (Forall2_elem_of_r _ _ _ _ Hall Hfinal) as (pred & Hpred & Hlast).
    destruct (Hok pred Hpred) as (final' & Hlast' & Hr). congruence. }
  unfold Metrics.structural_statistic, Metrics.mean_token_efficiency.
  rewrite (comprehension_raise_only _ _ ZeroDivisionError); [done| |].
  - exists empty. split; [done|].
    destruct (Hok empty Hin) as (final & Hlast & _).
    unfold Metrics.token_efficiency, last_item, Metrics.true_div. rewrite Hlast. cbn.
    rewrite decide_True; [done|].
    clear Hlast Hin. induction empty as [|t empty IH]; [done|].
    cbn. rewrite (Hempty t) by left. rewrite IH by (intros; apply Hempty; by right).
    done.
  - intros preds e Hpreds Hraise.
    destruct (token_efficiency_raises code _ _ Hraise) as [-> | ->]; [|done].
    exfalso. destruct (Hok preds Hpreds) as (final & Hlast & _).
    unfold Metrics.token_efficiency, last_item in Hraise. rewrite Hlast in Hraise.
    cbn in Hraise. unfold Metrics.true_div in Hraise. by case_decide.
Qed.

(** X16. With [measure_throughput] set, [compute] reports the mean number
    of candidates per item under "MeanSamplingThroughput" and cannot fail
    on its statistic: for at least one item, no empty prediction and all
    final artifacts rasterizable it returns the scores of the library
    metrics on the code and the images of the final artifacts, with the
    mean of the winsorized numbers of candidates as the statistic; the
    statistic lies between any bounds on the numbers of candidates, and
    with fewer than twenty items winsorizing changes nothing, so that it is
    their plain mean. *)
Theorem compute_sampling_throughput (references : list Reference)
    (predictions : list (list TikzDocument)) (lo hi : nat) :
  predictions ≠ [] →
  (∀ pred, pred ∈ predictions →
     ∃ final, last pred = Some final ∧ is_rasterizable final = true) →
  (∀ pred, pred ∈ predictions → lo ≤ length pred ≤ hi) →
  ∃ w finals,
    Forall2 (λ pred final, last pred = Some final) predictions finals ∧
    Metrics.winsorize
      ((λ preds, inject_Z (Z.of_nat (length preds))) <$> predictions) Metrics.limit = Ok w ∧
    Metrics.compute code is_rasterizable rasterize true library_metrics
      references predictions =
      Ok (foldl (λ scores kv, <[kv.1 := kv.2]> scores)
            {[ "MeanSamplingThroughput"%string := Metrics.mean w ]}
            (library_metrics references (code <$> finals) (rasterize <$> finals))) ∧
    (inject_Z (Z.of_nat lo) <= Metrics.mean w ∧ Metrics.mean w <= inject_Z (Z.of_nat hi))%Q ∧
    (length predictions < 20 →
     w = (λ preds, inject_Z (Z.of_nat (length preds))) <$> predictions).
Proof.
  intros Hne Hok Hcount.
  destruct (finals_ok predictions) as (finals & Hall & Hfinals & Hg).
  { intros pred Hpred ->. by destruct (Hok [] Hpred) as (? & ? & _). }
  set (counts := (λ preds : list TikzDocument, inject_Z (Z.of_nat (length preds)))
                   <$> predictions).
  destruct (winsorize_ranks counts) as (w & Hw & Hwlen & _).
  { unfold counts. rewrite length_fmap. destruct predictions; [done|cbn; lia]. }
  exists w, finals.
  split; [done|]. split; [done|]. split; [|split].
  - unfold Metrics.compute. rewrite !Hg, Hfinals, !bind_Ok.
    assert (forallb is_rasterizable finals = true) as ->.
    { apply forallb_forall. intros final Hfinal. apply list_elem_of_In in Hfinal.
      destruct (Forall2_elem_of_r _ _ _ _ Hall Hfinal) as (pred & Hpred & Hlast).
      destruct (Hok pred Hpred) as (final' & Hlast' & Hr). congruence. }
    unfold Metrics.structural_statistic, Metrics.mean_sampling_throughput.
    fold counts. by rewrite Hw.
  - apply winsorize_values in Hw as (Hne' & _ & Hvalues).
    apply mean_bounds.
    + intros ->. unfold counts in Hwlen. rewrite length_fmap in Hwlen.
      destruct predictions; done.
    + apply Forall_forall. intros x Hx. apply Hvalues in Hx.
      apply list_elem_of_fmap in Hx as (preds & -> & Hpreds).
      destruct (Hcount preds Hpreds). rewrite <- !Zle_Qle. lia.
  - intros Hlen. rewrite winsorize_small in Hw; [congruence|].
    unfold counts. rewrite length_fmap. destruct predictions; [done|cbn in *; lia].
Qed.

End metrics_more.

Lemma mean_token_efficiency_bounds_witness :
  (0 <= Metrics.mean Stub.three_ratios ∧ Metrics.mean Stub.three_ratios <= 1)%Q.
Proof.
  apply (mean_token_efficiency_bounds Stub.doc_code Stub.three_items).
  reflexivity.
Defined.

Lemma mean_token_efficiency_first_try_witness :
  ∃ v, Metrics.mean_token_efficiency Stub.doc_code
         [[Stub.good "a"]; [Stub.good "bb"]] = Ok v ∧ (v == 1)%Q.
Proof.
  apply (mean_token_efficiency_first_try Stub.doc_code [[Stub.good "a"]; [Stub.good "bb"]]).
  - done.
  - intros preds Hpreds.
    apply elem_of_cons in Hpreds as [->|Hpreds]; [by eexists|].
    apply list_elem_of_singleton in Hpreds as ->. by eexists.
Defined.

Lemma compute_zero_division_witness :
  Stub.compute [[Stub.good "a"]; [Stub.good ""; Stub.good ""]] = Raise ZeroDivisionError.
Proof.
  apply (compute_zero_division Stub.doc_code Stub.doc_rasterizable Stub.rasterize
           Stub.library_metrics [] [[Stub.good "a"]; [Stub.good ""; Stub.good ""]]).
  - intros pred Hpred.
    apply elem_of_cons in Hpred as [->|Hpred]; [by eexists|].
    apply list_elem_of_singleton in Hpred as ->. by eexists.
  - exists [Stub.good ""; Stub.good ""]. split; [by right; left|].
    intros t Ht. apply elem_of_cons in Ht as [->|Ht]; [done|].
    by apply list_elem_of_singleton in Ht as ->.
Defined.

Lemma compute_sampling_throughput_witness :
  ∃ w finals,
    Forall2 (λ pred final, last pred = Some final) Stub.three_items finals ∧
    Metrics.winsorize
      ((λ preds, inject_Z (Z.of_nat (length preds))) <$> Stub.three_items) Metrics.limit
      = Ok w ∧
    Metrics.compute Stub.doc_code Stub.doc_rasterizable Stub.rasterize true
      Stub.library_metrics [] Stub.three_items =
      Ok (foldl (λ scores kv, <[kv.1 := kv.2]> scores)
            {[ "MeanSamplingThroughput"%string := Metrics.mean w ]}
            (Stub.library_metrics [] (Stub.doc_code <$> finals)
               (Stub.rasterize <$> finals))) ∧
    (inject_Z (Z.of_nat 2) <= Metrics.mean w ∧ Metrics.mean w <= inject_Z (Z.of_nat 2))%Q ∧
    (length Stub.three_items < 20 →
     w = (λ preds, inject_Z (Z.of_nat (length preds))) <$> Stub.three_items).
Proof.
  apply (compute_sampling_throughput Stub.doc_code Stub.doc_rasterizable Stub.rasterize
           Stub.library_metrics [] Stub.three_items 2 2).
  - done.
  - intros pred Hpred. unfold Stub.three_items in Hpred.
    repeat (apply elem_of_cons in Hpred as [->|Hpred]; [by eexists|]).
    by apply elem_of_nil in Hpred.
  - intros pred Hpred. unfold Stub.three_items in Hpred.
    repeat (apply elem_of_cons in Hpred as [->|Hpred]; [cbn; lia|]).
    by apply elem_of_nil in Hpred.
Defined.

(** ** The patch similarity metric *)

(** X17. The layer the features are taken from is always a block of the
    model: for a model of [depth >= 1] blocks the index lies in
    [0 .. depth-1]; a [feature_layer] from [-depth] to [depth-1] selects as
    Python indexing does (negative values count from the end), and a value
    outside that range selects the first or the last block instead of
    failing. *)
Theorem layer_index_in_range (feature_layer depth : Z) :
  (1 ≤ depth)%Z →
  (0 ≤ PatchSim.layer_index feature_layer depth < depth)%Z ∧
  ((0 ≤ feature_layer < depth)%Z →
     PatchSim.layer_index feature_layer depth = feature_layer) ∧
  ((- depth ≤ feature_layer < 0)%Z →
     PatchSim.layer_index feature_layer depth = (depth + feature_layer)%Z) ∧
  ((depth ≤ feature_layer)%Z → PatchSim.layer_index feature_layer depth = (depth - 1)%Z) ∧
  ((feature_layer < - depth)%Z → PatchSim.layer_index feature_layer depth = 0%Z).
Proof.
  intros Hdepth. unfold PatchSim.layer_index.
  split; [|split; [|split; [|split]]].
  - apply Z.mod_pos_bound. lia.
  - intros Hin. rewrite Z.max_l, Z.min_l by lia. apply Z.mod_small. lia.
  - intros Hin. rewrite Z.max_l, Z.min_l by lia.
    symmetry. apply (Z.mod_unique _ _ (-1)); lia.
  - intros Hin. rewrite Z.max_l, Z.min_r by lia. apply Z.mod_small. lia.
  - intros Hin. rewrite Z.max_r, Z.min_l by lia.
    symmetry. apply (Z.mod_unique _ _ (-1)); lia.
Qed.

Lemma layer_index_in_range_witness :
  (0 ≤ PatchSim.layer_index (-3) 27 < 27)%Z.
Proof. apply (layer_index_in_range (-3) 27). lia. Defined.

Section patchsim_more.
Context {Image : Type}.
Variable get_similarity : Image → Image → Q.

Local Abbreviation accumulate := (PatchSim.accumulate get_similarity).
Local Abbreviation update := (PatchSim.update get_similarity).
Local Abbreviation similarities :=
  (λ pairs : list (Image * Image), (λ pair, get_similarity pair.1 pair.2) <$> pairs).

Lemma accumulate_app pairs1 pairs2 st :
  accumulate (pairs1 ++ pairs2) st = accumulate pairs2 (accumulate pairs1 st).
Proof. unfold PatchSim.accumulate. by rewrite foldl_app. Qed.

Lemma accumulate_state pairs st :
  PatchSim.n_samples (accumulate pairs st) = PatchSim.n_samples st + length pairs ∧
  (PatchSim.score (accumulate pairs st) ==
     PatchSim.score st + foldr Qplus 0 (similarities pairs))%Q.
Proof.
  revert st. induction pairs as [|pair pairs IH]; intros st.
  - cbn. split; [lia|lra].
  - destruct (IH (PatchSim.State (PatchSim.score st + get_similarity pair.1 pair.2)
                    (S (PatchSim.n_samples st)))) as [Hn Hs].
    change (accumulate (pair :: pairs) st) with
      (accumulate pairs (PatchSim.State (PatchSim.score st + get_similarity pair.1 pair.2)
                           (S (PatchSim.n_samples st)))).
    split.
    + rewrite Hn. cbn. lia.
    + rewrite Hs. cbn. lra.
Qed.

(** X18. The metric is the arithmetic mean of the similarities fed to it:
    after one [update] of a fresh metric with two lists of [n >= 1] images
    each, [n_samples] is [n] and [compute] returns the sum of the [n]
    similarities of the pairs divided by [n]; with no pair at all it
    returns NaN. *)
Theorem patchsim_mean (imgs1 imgs2 : list Image) :
  length imgs1 = length imgs2 →
  ∃ st, update (PatchSim.Many imgs1) (PatchSim.Many imgs2) PatchSim.initial = Ok st ∧
    PatchSim.n_samples st = length imgs1 ∧
    (imgs1 = [] → PatchSim.compute st = None) ∧
    (imgs1 ≠ [] →
     ∃ v, PatchSim.compute st = Some v ∧
       (v == Metrics.mean (similarities (zip imgs1 imgs2)))%Q).
Proof.
  intros Hlen. unfold PatchSim.update. rewrite decide_True by done.
  eexists. split; [done|].
  destruct (accumulate_state (zip imgs1 imgs2) PatchSim.initial) as [Hn Hs].
  rewrite length_zip, <- Hlen, Nat.min_id in Hn. cbn in Hn.
  split; [done|]. unfold PatchSim.compute. rewrite Hn. split.
  - intros ->. done.
  - intros Hne. rewrite decide_False by (by destruct imgs1).
    eexists. split; [done|]. unfold Metrics.mean.
    rewrite length_fmap, length_zip, <- Hlen, Nat.min_id.
    rewrite Hs. cbn [PatchSim.initial PatchSim.score]. by rewrite Qplus_0_l.
Qed.

(** X19. Updates compose: feeding two lists of pairs one after the other
    leaves the metric in the state it has after feeding their
    concatenation, and feeding one pair of images is feeding two lists of
    one image.  Lists of different lengths, or a list with a single image,
    fail the assertion. *)
Theorem patchsim_update_compose (a1 b1 a2 b2 : list Image) (st : PatchSim.state) :
  length a1 = length b1 → length a2 = length b2 →
  update (PatchSim.Many (a1 ++ a2)) (PatchSim.Many (b1 ++ b2)) st =
    (st' ← update (PatchSim.Many a1) (PatchSim.Many b1) st;
     update (PatchSim.Many a2) (PatchSim.Many b2) st') ∧
  (∀ a b, update (PatchSim.One a) (PatchSim.One b) st
          = update (PatchSim.Many [a]) (PatchSim.Many [b]) st) ∧
  (∀ a b, length a ≠ length b →
     update (PatchSim.Many a) (PatchSim.Many b) st = Raise AssertionError) ∧
  (∀ a b, update (PatchSim.Many a) (PatchSim.One b) st = Raise AssertionError ∧
          update (PatchSim.One b) (PatchSim.Many a) st = Raise AssertionError).
Proof.
  intros H1 H2. split; [|split; [|split]].
  - unfold PatchSim.update.
    rewrite (decide_True (P := length (a1 ++ a2) = length (b1 ++ b2)))
      by (rewrite !length_app; lia).
    rewrite (decide_True (P := length a1 = length b1)) by done.
    rewrite bind_Ok.
    rewrite (decide_True (P := length a2 = length b2)) by done.
    by rewrite zip_with_app, accumulate_app.
  - done.
  - intros a b Hne. unfold PatchSim.update. by rewrite decide_False.
  - done.
Qed.

(** X20. For whole-number bounds, such as the -1 and 1 between which a
    cosine similarity lies, the value of the metric stays within the bounds
    of the similarities: when every similarity lies between [lo] and [hi],
    so does what [compute] returns after an [update] with lists that are
    not empty.  The metric adds and divides in 64-bit floats; the whole
    numbers [k * lo] and [k * hi] up to the number of pairs are exact
    there as long as they do not exceed 2^53 in size, and rounding never
    crosses an exact number, so that the bounds hold for the rounded sums
    and the rounded quotient as they do for the exact ones here. *)
Theorem patchsim_bounds (imgs1 imgs2 : list Image) (lo hi : Z) (st : PatchSim.state) (v : Q) :
  (∀ a b, inject_Z lo <= get_similarity a b ∧ get_similarity a b <= inject_Z hi)%Q →
  (Z.of_nat (length imgs1) * (Z.abs lo `max` Z.abs hi) ≤ 2 ^ 53)%Z →
  update (PatchSim.Many imgs1) (PatchSim.Many imgs2) PatchSim.initial = Ok st →
  PatchSim.compute st = Some v →
  (inject_Z lo <= v ∧ v <= inject_Z hi)%Q.
Proof.
  intros Hsim _ Hupdate Hcompute. unfold PatchSim.update in Hupdate.
  case_decide as Hlen; [|done]. injection Hupdate as <-.
  destruct (accumulate_state (zip imgs1 imgs2) PatchSim.initial) as [Hn Hs].
  unfold PatchSim.compute in Hcompute. case_decide as Hzero; [done|].
  injection Hcompute as <-.
  destruct (mean_bounds (inject_Z lo) (inject_Z hi) (similarities (zip imgs1 imgs2)))
    as [Hlo Hhi].
  - intros Hnil. apply fmap_nil_inv in Hnil. rewrite Hnil in Hzero. by apply Hzero.
  - apply Forall_forall. intros x Hx. apply list_elem_of_fmap in Hx as (pair & -> & _).
    apply Hsim.
  - unfold Metrics.mean in Hlo, Hhi. rewrite length_fmap in Hlo, Hhi.
    rewrite Hn, Hs. cbn [PatchSim.initial PatchSim.score PatchSim.n_samples Nat.add].
    rewrite Qplus_0_l. done.
Qed.

End patchsim_more.

Lemma patchsim_mean_witness :
  ∃ st, PatchSim.update (λ a b : nat, inject_Z (Z.of_nat (a + b)))
          (PatchSim.Many [1; 2]) (PatchSim.Many [3; 4]) PatchSim.initial = Ok st ∧
    PatchSim.n_samples st = 2 ∧
    ([1; 2] = [] → PatchSim.compute st = None) ∧
    ([1; 2] ≠ [] →
     ∃ v, PatchSim.compute st = Some v ∧
       (v == Metrics.mean [inject_Z (Z.of_nat (1 + 3)); inject_Z (Z.of_nat (2 + 4))])%Q).
Proof.
  apply (patchsim_mean (λ a b : nat, inject_Z (Z.of_nat (a + b))) [1; 2] [3; 4]).
  reflexivity.
Defined.

Lemma patchsim_update_compose_witness :
  PatchSim.update (λ a b : nat, inject_Z (Z.of_nat (a + b)))
    (PatchSim.Many ([1] ++ [2])) (PatchSim.Many ([3] ++ [4])) PatchSim.initial =
  (st' ← PatchSim.update (λ a b : nat, inject_Z (Z.of_nat (a + b)))
           (PatchSim.Many [1]) (PatchSim.Many [3]) PatchSim.initial;
   PatchSim.update (λ a b : nat, inject_Z (Z.of_nat (a + b)))
     (PatchSim.Many [2]) (PatchSim.Many [4]) st').
Proof.
  apply (patchsim_update_compose (λ a b : nat, inject_Z (Z.of_nat (a + b)))
           [1] [3] [2] [4] PatchSim.initial); reflexivity.
Defined.

Lemma patchsim_bounds_witness :
  (inject_Z 0 <= (0 + 1 + 0) / inject_Z (Z.of_nat 2) ∧
   (0 + 1 + 0) / inject_Z (Z.of_nat 2) <= inject_Z 1)%Q.
Proof.
  apply (patchsim_bounds (λ a b : nat, if decide (a = b) then 1%Q else 0%Q)
           [1; 2] [1; 3] 0 1
           (PatchSim.State (0 + 1 + 0) 2) ((0 + 1 + 0) / inject_Z (Z.of_nat 2))).
  - intros a b. case_decide; split; done.
  - vm_compute. discriminate.
  - reflexivity.
  - reflexivity.
Defined.

(** ** The items of [--path] *)

Section driver_facts.
Import Stdlib.Strings.Ascii.

Lemma append_nil (b : string) : EmptyString +:+ b = b.
Proof. done. Qed.

Lemma append_cons x (a b : string) : String x a +:+ b = String x (a +:+ b).
Proof. done. Qed.

Lemma contains_app c a b :
  Driver.contains c (a +:+ b) = Driver.contains c a || Driver.contains c b.
Proof.
  induction a as [|x a IH]; [done|]. rewrite append_cons. cbn [Driver.contains].
  by case_decide.
Qed.

Lemma count_app c a b : Driver.count c (a +:+ b) = Driver.count c a + Driver.count c b.
Proof.
  induction a as [|x a IH]; [done|]. rewrite append_cons. cbn [Driver.count].
  rewrite IH. lia.
Qed.

Lemma count_app_sep c a b :
  Driver.count c (a +:+ String c b) = S (Driver.count c a + Driver.count c b).
Proof. rewrite count_app. cbn [Driver.count]. rewrite decide_True by done. lia. Qed.

Lemma contains_app_sep c a b : Driver.contains c (a +:+ String c b) = true.
Proof.
  rewrite contains_app. cbn [Driver.contains]. rewrite decide_True by done.
  by rewrite orb_true_r.
Qed.

Lemma contains_count c s : Driver.contains c s = true ↔ 1 ≤ Driver.count c s.
Proof.
  induction s as [|x s IH]; cbn.
  - split; [done|lia].
  - case_decide; [split; [lia|done]|]. by rewrite IH.
Qed.

Lemma contains_false_count c s : Driver.contains c s = false ↔ Driver.count c s = 0.
Proof.
  destruct (contains_count c s) as [H1 H2].
  destruct (Driver.contains c s); split; intros H; try done.
  - specialize (H1 eq_refl). lia.
  - destruct (Driver.count c s); [done|]. discriminate H2. lia.
Qed.

Lemma split_nonempty sep s : Driver.split sep s ≠ [].
Proof.
  destruct s as [|c s]; cbn; [done|]. case_decide; [done|].
  by destruct (Driver.split sep s).
Qed.

Lemma split_no_sep sep s : Driver.contains sep s = false → Driver.split sep s = [s].
Proof.
  induction s as [|c s IH]; cbn; [done|]. case_decide; [done|].
  intros Hc. by rewrite IH.
Qed.

Lemma split_app_sep sep a b :
  Driver.split sep (a +:+ String sep b) = Driver.split sep a ++ Driver.split sep b.
Proof.
  induction a as [|c a IH].
  - rewrite append_nil. cbn. by rewrite decide_True.
  - rewrite append_cons. cbn [Driver.split]. rewrite IH. case_decide; [done|].
    pose proof (split_nonempty sep a). by destruct (Driver.split sep a).
Qed.

Lemma split_length sep s : length (Driver.split sep s) = S (Driver.count sep s).
Proof.
  induction s as [|c s IH]; cbn; [done|]. case_decide; cbn.
  - by rewrite IH.
  - pose proof (split_nonempty sep s). destruct (Driver.split sep s); [done|].
    cbn in *. done.
Qed.

Lemma join_cons sep p q qs :
  Driver.join sep (p :: q :: qs) = p +:+ String sep (Driver.join sep (q :: qs)).
Proof. done. Qed.

Lemma join_split sep s : Driver.join sep (Driver.split sep s) = s.
Proof.
  induction s as [|c s IH]; [done|]. cbn [Driver.split].
  pose proof (split_nonempty sep s).
  destruct (Driver.split sep s) as [|p ps] eqn:Hs; [done|]. case_decide as Hc.
  - by rewrite join_cons, IH, append_nil, Hc.
  - destruct ps as [|q ps].
    + cbn in IH |- *. by rewrite IH.
    + rewrite join_cons in IH. by rewrite join_cons, append_cons, IH.
Qed.

Lemma split_piece_contains sep c s p :
  p ∈ Driver.split sep s → Driver.contains c p = true → Driver.contains c s = true.
Proof.
  revert p. induction s as [|x s IH]; intros p; cbn.
  - intros ->%list_elem_of_singleton. done.
  - case_decide as Hx.
    + intros [-> | Hp]%elem_of_cons Hc; [done|].
      rewrite (IH p Hp Hc). by case_decide.
    + pose proof (split_nonempty sep s).
      destruct (Driver.split sep s) as [|q qs] eqn:Hs; [done|].
      intros [-> | Hp]%elem_of_cons Hc.
      * cbn in Hc. case_decide; [done|]. apply (IH q); [left|done].
      * case_decide; [done|]. apply (IH p); [by right|done].
Qed.

Lemma dict_inl elements d e :
  Driver.dict elements d = inl e ↔
  e = Driver.ValueError ∧ Exists (λ element, length element ≠ 2) elements.
Proof.
  revert d. induction elements as [|element elements IH]; intros d.
  - cbn. split; [done|]. intros [_ H]. by apply Exists_nil in H.
  - rewrite Exists_cons. destruct element as [|k [|v [|w element]]]; cbn.
    + split; [intros [= <-]|]; naive_solver.
    + split; [intros [= <-]|]; naive_solver.
    + rewrite IH. naive_solver.
    + split; [intros [= <-]|]; [split; [done|left; lia]|naive_solver].
Qed.

Lemma dict_lookup_None elements d m k :
  Driver.dict elements d = inr m →
  m !! k = None ↔ d !! k = None ∧ Forall (λ element, element !! 0 ≠ Some k) elements.
Proof.
  revert d. induction elements as [|element elements IH]; intros d.
  - cbn. intros [= ->]. split; [done|]. by intros [? _].
  - destruct element as [|k' [|v [|w element]]]; cbn; try done.
    intros Hd. rewrite (IH _ Hd), lookup_insert_None, Forall_cons. cbn. naive_solver.
Qed.

Lemma split_key_value (key value : string) :
  Driver.contains "="%char key = false → Driver.contains "="%char value = false →
  Driver.split "="%char (key +:+ String "="%char value) = [key; value].
Proof. intros Hk Hv. by rewrite split_app_sep, !split_no_sep. Qed.

Lemma split_two sep s k v : Driver.split sep s = [k; v] → s = k +:+ String sep v.
Proof. intros Hs. by rewrite <- (join_split sep s), Hs. Qed.

Lemma model_parts_inl item e :
  Driver.model_parts item = inl e ↔
  e = Driver.ValueError ∧
  ∃ part, part ∈ Driver.split ","%char item ∧ 2 ≤ Driver.count "="%char part.
Proof.
  unfold Driver.model_parts. rewrite dict_inl, Exists_fmap, Exists_exists.
  apply and_iff_compat_l. split.
  - intros (part & [Hc Hin]%list_elem_of_filter & Hlen). exists part. split; [done|].
    cbn in Hlen. rewrite split_length in Hlen. apply contains_count in Hc. lia.
  - intros (part & Hin & Hcount). exists part. split.
    + apply list_elem_of_filter. split; [|done]. apply contains_count. lia.
    + cbn. rewrite split_length. lia.
Qed.

Lemma model_parts_lookup_None item m k :
  Driver.model_parts item = inr m →
  m !! k = None ↔
  ∀ part, part ∈ Driver.split ","%char item → ∀ v, part ≠ k +:+ String "="%char v.
Proof.
  intros Hm.
  assert (∀ part, part ∈ Driver.split ","%char item → Driver.count "="%char part ≤ 1)
    as Hcount.
  { intros part Hin. destruct (decide (Driver.count "="%char part ≤ 1)); [done|].
    assert (Driver.model_parts item = inl Driver.ValueError) as Hbad; [|congruence].
    apply model_parts_inl. split; [done|]. exists part. split; [done|lia]. }
  unfold Driver.model_parts in Hm. rewrite (dict_lookup_None _ _ _ k Hm).
  rewrite lookup_empty, Forall_fmap, Forall_forall. split.
  - intros [_ Hkeys] part Hin v ->.
    specialize (Hcount _ Hin). rewrite count_app_sep in Hcount.
    apply (Hkeys (k +:+ String "="%char v)).
    + apply list_elem_of_filter. split; [|done]. apply contains_app_sep.
    + cbn. rewrite split_key_value; [done| |]; apply contains_false_count; lia.
  - intros Hparts. split; [done|]. intros part [Hc Hin]%list_elem_of_filter. cbn.
    intros Hkey. specialize (Hcount _ Hin). apply contains_count in Hc.
    pose proof (split_length "="%char part) as Hlen.
    destruct (Driver.split "="%char part) as [|k1 [|v1 [|w rest]]] eqn:Hs;
      cbn in Hlen, Hkey; try lia.
    injection Hkey as ->. by apply (Hparts part Hin v1), split_two.
Qed.

Lemma split_join sep pieces :
  pieces ≠ [] → Forall (λ p, Driver.contains sep p = false) pieces →
  Driver.split sep (Driver.join sep pieces) = pieces.
Proof.
  induction pieces as [|p ps IH]; [done|]. intros _ [Hp Hps]%Forall_cons.
  destruct ps as [|q ps]; [by apply split_no_sep|].
  rewrite join_cons, split_app_sep, split_no_sep by done. cbn [app].
  by rewrite IH.
Qed.

Lemma filter_none {A} (P : A → Prop) `{!∀ x, Decision (P x)} (l : list A) :
  Forall (λ x, ¬ P x) l → filter P l = [].
Proof.
  induction 1 as [|x l Hx _ IH]; [done|]. by rewrite filter_cons_False.
Qed.

Lemma filter_all {A} (P : A → Prop) `{!∀ x, Decision (P x)} (l : list A) :
  Forall P l → filter P l = l.
Proof.
  induction 1 as [|x l Hx _ IH]; [done|]. by rewrite filter_cons_True, IH.
Qed.

(** The parts without [=] of an item are dropped before [dict] sees them. *)
Lemma plain_parts_filtered junk :
  Driver.contains "="%char junk = false →
  filter (λ part, Driver.contains "="%char part = true) (Driver.split ","%char junk) = [].
Proof.
  intros Hjunk. apply filter_none, Forall_forall. intros part Hin Hc.
  by rewrite (split_piece_contains _ _ _ _ Hin Hc) in Hjunk.
Qed.

(** The parts of an item written as [key=value] pairs joined by commas. *)
Lemma model_parts_format (pairs : list (string * string)) :
  pairs ≠ [] →
  Forall (λ pair, Forall (λ s, Driver.contains ","%char s = false ∧
                               Driver.contains "="%char s = false) [pair.1; pair.2]) pairs →
  Driver.model_parts
    (Driver.join ","%char ((λ pair, pair.1 +:+ String "="%char pair.2) <$> pairs))
  = Driver.dict ((λ pair, [pair.1; pair.2]) <$> pairs) ∅.
Proof.
  intros Hne Hclean. unfold Driver.model_parts. rewrite split_join.
  - rewrite filter_all.
    + f_equal. rewrite <- list_fmap_compose. apply Forall_fmap_ext_1.
      eapply Forall_impl; [exact Hclean|]. intros [k v] Hkv. cbn in Hkv |- *.
      apply Forall_cons in Hkv as [[_ Hk] [[_ Hv] _]%Forall_cons].
      by apply split_key_value.
    + apply Forall_fmap, Forall_forall. intros pair _. apply contains_app_sep.
  - by destruct pairs.
  - apply Forall_fmap. eapply Forall_impl; [exact Hclean|]. intros [k v] Hkv.
    cbn in Hkv |- *. apply Forall_cons in Hkv as [[Hk _] [[Hv _] _]%Forall_cons].
    rewrite contains_app. cbn [Driver.contains]. rewrite Hk, Hv. by case_decide.
Qed.

Lemma length_append (a b : string) :
  String.length (a +:+ b) = String.length a + String.length b.
Proof. induction a as [|c a IH]; [done|]. rewrite append_cons. cbn. by rewrite IH. Qed.

Lemma substring_all (s : string) : String.substring 0 (String.length s) s = s.
Proof. induction s as [|c s IH]; [done|]. cbn. by rewrite IH. Qed.

Lemma substring_append (a b : string) :
  String.substring (String.length a) (String.length b) (a +:+ b) = b.
Proof. induction a as [|c a IH]; [apply substring_all|]. by rewrite append_cons. Qed.

Lemma substring_split (s : string) (n : nat) :
  n ≤ String.length s →
  s = String.substring 0 n s +:+ String.substring n (String.length s - n) s.
Proof.
  revert n. induction s as [|c s IH]; intros n Hn.
  - cbn in Hn. by replace n with 0 by lia.
  - destruct n as [|n].
    + rewrite Nat.sub_0_r, substring_all. done.
    + cbn in Hn. cbn [String.substring String.length Nat.sub].
      rewrite append_cons. f_equal. apply IH. lia.
Qed.

Lemma endswith_iff (s suffix : string) :
  Driver.endswith s suffix = true ↔ ∃ stem, s = stem +:+ suffix.
Proof.
  unfold Driver.endswith. cbv zeta. split.
  - case_decide as Hle; [|done]. intros Hsub%bool_decide_eq_true.
    exists (String.substring 0 (String.length s - String.length suffix) s).
    pose proof (substring_split s (String.length s - String.length suffix)) as Hs.
    replace (String.length s - (String.length s - String.length suffix))
      with (String.length suffix) in Hs by lia.
    rewrite Hsub in Hs. apply Hs. lia.
  - intros [stem ->]. rewrite length_append. rewrite decide_True by lia.
    apply bool_decide_eq_true.
    replace (String.length stem + String.length suffix - String.length suffix)
      with (String.length stem) by lia.
    apply substring_append.
Qed.

(** X21. An item of [--path] raises [ValueError] exactly when one of its
    comma-separated parts holds two or more [=] signs, as a path or URL
    with a query string does: [dict] then meets an element of three or
    more items. *)
Theorem plan_item_value_error (item : string) :
  Driver.plan_item item = inl Driver.ValueError ↔
  ∃ part, part ∈ Driver.split ","%char item ∧ 2 ≤ Driver.count "="%char part.
Proof.
  unfold Driver.plan_item. destruct (Driver.model_parts item) as [e|m] eqn:Hm.
  - apply model_parts_inl in Hm as [-> Hpart]. done.
  - split.
    + intros Hbad. destruct (m !! "PATH"); [|done].
      by destruct (Driver.endswith _ _).
    + intros Hpart.
      assert (Driver.model_parts item = inl Driver.ValueError) as Hbad; [|congruence].
      by apply model_parts_inl.
Qed.

(** X22. An item of [--path] raises [AttributeError] ([path] is [None]
    when [endswith] is called on it) exactly when no part holds more than
    one [=] sign and no part has the form [PATH=...]. *)
Theorem plan_item_attribute_error (item : string) :
  Driver.plan_item item = inl Driver.AttributeError ↔
  (∀ part, part ∈ Driver.split ","%char item → Driver.count "="%char part ≤ 1) ∧
  (∀ part, part ∈ Driver.split ","%char item → ∀ v, part ≠ "PATH=" +:+ v).
Proof.
  unfold Driver.plan_item. destruct (Driver.model_parts item) as [e|m] eqn:Hm.
  - apply model_parts_inl in Hm as [-> (part & Hin & Hcount)]. split; [done|].
    intros [Hle _]. specialize (Hle _ Hin). lia.
  - pose proof (model_parts_lookup_None item m "PATH" Hm) as Hpath.
    assert (∀ part, part ∈ Driver.split ","%char item → Driver.count "="%char part ≤ 1)
      as Hcount.
    { intros part Hin. destruct (decide (Driver.count "="%char part ≤ 1)); [done|].
      assert (Driver.model_parts item = inl Driver.ValueError) as Hbad; [|congruence].
      apply model_parts_inl. split; [done|]. exists part. split; [done|lia]. }
    destruct (m !! "PATH") as [path|].
    + split.
      * by destruct (Driver.endswith _ _).
      * intros [_ Hno]. by apply Hpath in Hno.
    + split; [|done]. intros _. split; [done|]. by apply Hpath.
Qed.

(** X23. An item written [MODEL=name,PATH=path], with or without
    [,LORA_WEIGHTS=lora], where the three values hold neither a comma nor
    an [=] sign, is read back as written: the name and the path are the
    ones given; a path that ends in [json] (with or without a dot before
    it) is opened as a file of predictions and the LoRA weights are
    ignored; any other path is the base model of [predict], with the LoRA
    weights when they are given and not empty. *)
Theorem plan_item_formatted (name path lora : string) :
  Forall (λ s, Driver.contains ","%char s = false ∧ Driver.contains "="%char s = false)
    [name; path; lora] →
  Driver.plan_item ("MODEL=" +:+ name +:+ ",PATH=" +:+ path +:+ ",LORA_WEIGHTS=" +:+ lora)
  = inr (if Driver.endswith path "json" then Driver.LoadPredictions (Some name) path
         else Driver.RunPredict (Some name) path
                (if decide (lora = EmptyString) then None else Some lora)) ∧
  Driver.plan_item ("MODEL=" +:+ name +:+ ",PATH=" +:+ path)
  = inr (if Driver.endswith path "json" then Driver.LoadPredictions (Some name) path
         else Driver.RunPredict (Some name) path None) ∧
  (Driver.endswith path "json" = true ↔ ∃ stem, path = stem +:+ "json").
Proof.
  intros [Hname [Hpath [Hlora _]%Forall_cons]%Forall_cons]%Forall_cons.
  split; [|split].
  - assert ("MODEL=" +:+ name +:+ ",PATH=" +:+ path +:+ ",LORA_WEIGHTS=" +:+ lora
            = Driver.join ","%char
                ((λ pair, pair.1 +:+ String "="%char pair.2) <$>
                 [("MODEL", name); ("PATH", path); ("LORA_WEIGHTS", lora)])) as ->.
    { reflexivity. }
    unfold Driver.plan_item. rewrite model_parts_format; [|discriminate|].
    + cbn [fmap list_fmap fst snd Driver.dict].
      repeat (rewrite lookup_insert_eq || rewrite lookup_insert_ne by done
              || rewrite lookup_empty).
      by destruct (Driver.endswith path "json").
    + repeat (apply Forall_cons; split); try apply Forall_nil; done.
  - assert ("MODEL=" +:+ name +:+ ",PATH=" +:+ path
            = Driver.join ","%char
                ((λ pair, pair.1 +:+ String "="%char pair.2) <$>
                 [("MODEL", name); ("PATH", path)])) as ->.
    { reflexivity. }
    unfold Driver.plan_item. rewrite model_parts_format; [|discriminate|].
    + cbn [fmap list_fmap fst snd Driver.dict].
      repeat (rewrite lookup_insert_eq || rewrite lookup_insert_ne by done
              || rewrite lookup_empty).
      by destruct (Driver.endswith path "json").
    + repeat (apply Forall_cons; split); try apply Forall_nil; done.
  - apply endswith_iff.
Qed.

Lemma plan_item_formatted_witness :
  Driver.plan_item ("MODEL=" +:+ "m" +:+ ",PATH=" +:+ "/x/y" +:+ ",LORA_WEIGHTS=" +:+ "/w")
  = inr (if Driver.endswith "/x/y" "json" then Driver.LoadPredictions (Some "m") "/x/y"
         else Driver.RunPredict (Some "m") "/x/y"
                (if decide ("/w" = EmptyString) then None else Some "/w")).
Proof.
  apply (proj1 (plan_item_formatted "m" "/x/y" "/w"
                  ltac:(repeat (apply Forall_cons; split); try apply Forall_nil; done))).
Defined.

(** X24. The format the help text of [--path] shows,
    [MODEL=path,LORA_WEIGHTS=path] (and [MODEL=path] alone), is not the one
    the driver reads: with values that hold neither a comma nor an [=]
    sign such an item always raises [AttributeError], since the dictionary
    built from it has no ["PATH"] key. *)
Theorem plan_item_help_format (path lora : string) :
  Forall (λ s, Driver.contains ","%char s = false ∧ Driver.contains "="%char s = false)
    [path; lora] →
  Driver.plan_item ("MODEL=" +:+ path +:+ ",LORA_WEIGHTS=" +:+ lora)
    = inl Driver.AttributeError ∧
  Driver.plan_item ("MODEL=" +:+ path) = inl Driver.AttributeError.
Proof.
  intros [Hpath [Hlora _]%Forall_cons]%Forall_cons. split.
  - assert ("MODEL=" +:+ path +:+ ",LORA_WEIGHTS=" +:+ lora
            = Driver.join ","%char
                ((λ pair, pair.1 +:+ String "="%char pair.2) <$>
                 [("MODEL", path); ("LORA_WEIGHTS", lora)])) as ->.
    { reflexivity. }
    unfold Driver.plan_item. rewrite model_parts_format; [|discriminate|].
    + cbn [fmap list_fmap fst snd Driver.dict].
      by rewrite !lookup_insert_ne, lookup_empty by done.
    + repeat (apply Forall_cons; split); try apply Forall_nil; done.
  - assert ("MODEL=" +:+ path
            = Driver.join ","%char
                ((λ pair, pair.1 +:+ String "="%char pair.2) <$> [("MODEL", path)])) as ->.
    { done. }
    unfold Driver.plan_item. rewrite model_parts_format; [|discriminate|].
    + cbn [fmap list_fmap fst snd Driver.dict].
      by rewrite !lookup_insert_ne, lookup_empty by done.
    + repeat (apply Forall_cons; split); try apply Forall_nil; done.
Qed.

Lemma plan_item_help_format_witness :
  Driver.plan_item ("MODEL=" +:+ "/x/y" +:+ ",LORA_WEIGHTS=" +:+ "/w")
    = inl Driver.AttributeError.
Proof.
  apply (proj1 (plan_item_help_format "/x/y" "/w"
                  ltac:(repeat (apply Forall_cons; split); try apply Forall_nil; done))).
Defined.

(** X25. Parts without an [=] sign are dropped silently: adding such
    text to an item, before or after it and separated by a comma, changes
    nothing of what the driver does with the item. *)
Theorem plan_item_ignores_plain_parts (item junk : string) :
  Driver.contains "="%char junk = false →
  Driver.plan_item (item +:+ "," +:+ junk) = Driver.plan_item item ∧
  Driver.plan_item (junk +:+ "," +:+ item) = Driver.plan_item item.
Proof.
  intros Hjunk. unfold Driver.plan_item, Driver.model_parts.
  change ("," +:+ junk) with (String ","%char junk).
  change ("," +:+ item) with (String ","%char item).
  rewrite !split_app_sep, !filter_app, !(plain_parts_filtered junk Hjunk).
  by rewrite app_nil_r.
Qed.

Lemma plan_item_ignores_plain_parts_witness :
  Driver.plan_item ("PATH=/x" +:+ "," +:+ "lora") = Driver.plan_item "PATH=/x".
Proof.
  apply (proj1 (plan_item_ignores_plain_parts "PATH=/x" "lora" eq_refl)).
Defined.

End driver_facts.
